(** * Black-Scholes pricing engine (app.py): model and properties

    The pricing core of [app.py] consists of four pure functions, [d1], [d2],
    [black_scholes] and [calculate_greeks].  They are embedded here over an
    idealised floating-point type: a value is a real number or one of the
    IEEE special values (+inf, -inf, NaN); finite values are combined with
    exact real arithmetic, special values follow the IEEE rules that numpy
    applies.  Rounding, overflow, underflow and the sign of zero are not
    modelled.

    [scipy.stats.norm] is modelled by the standard normal distribution: the
    density [exp (- x^2 / 2) / sqrt (2 * PI)] and its distribution function.
    Part II proves the Gaussian integral, from which the distribution
    function gets its limits 0 and 1, and the analytic facts behind the
    price bounds.  Part IV adds the behaviour of the functions at the edge of
    and outside their domain and their sensitivities; Part V covers the
    script around them: slider values, the strike sweep, the axis ranges and
    the data frame of the chart. *)

From Stdlib Require Import Reals Lra Lia ZArith List String.
Import ListNotations.

Local Open Scope R_scope.

(** * Part I: the program *)

(** ** Integrals of continuous functions *)

Section Integral.

Variable f : R -> R.
Hypothesis f_cont : continuity f.

(** A continuous function is integrable between any two points, in either
    order. *)
Lemma cont_integrable (a b : R) : Riemann_integrable f a b.
Proof.
  destruct (Rle_dec a b) as [Hab | Hab].
  - apply continuity_implies_RiemannInt; [exact Hab|].
    intros x _. apply f_cont.
  - apply RiemannInt_P1, continuity_implies_RiemannInt; [lra|].
    intros x _. apply f_cont.
Qed.

(** The integral of [f] from [a] to [x]. *)
Definition integral (a x : R) : R := RiemannInt (cont_integrable a x).

End Integral.

(** ** The standard normal distribution ([scipy.stats.norm]) *)

Module Normal.

(** The Gaussian kernel [exp (- t^2 / 2)]. *)
Definition gauss (t : R) : R := exp (- (t * t) / 2).

Lemma gauss_continuity : continuity gauss.
Proof. unfold gauss. reg. Qed.

(** Signed area under the kernel between [0] and [x]. *)
Definition gauss_area (x : R) : R := integral gauss gauss_continuity 0 x.

(** [sqrt (2 * PI)], the total mass of the kernel over the real line
    (see [NormalFacts.gauss_area_lt_half] and [NormalFacts.gauss_area_approx]). *)
Definition gauss_mass : R := sqrt (2 * PI).

(** [norm.pdf] and [norm.cdf] on finite arguments: the density
    [exp (- x^2 / 2) / sqrt (2 * PI)] and its integral from minus infinity,
    written as one half plus the integral from [0]. *)
Definition norm_pdf (x : R) : R := gauss x / gauss_mass.
Definition norm_cdf (x : R) : R := 1 / 2 + gauss_area x / gauss_mass.

End Normal.

(** ** Values and outcomes *)

(** A numpy/Python float: a finite value or an IEEE special value. *)
Inductive float : Type :=
| Fin (x : R)
| PInf
| NInf
| NaN.

(** Exceptions.  [ZeroDivisionError] is what Python raises when a Python
    float is divided by zero; numpy scalars return inf or NaN instead.
    [InvalidParameter] is the error kind of the specification; no statement
    of [app.py] raises it. *)
Inductive exn : Type :=
| ZeroDivisionError
| InvalidParameter.

Inductive result (A : Type) : Type :=
| Ret (a : A)
| Raise (e : exn).

Arguments Ret {A} a.
Arguments Raise {A} e.

Definition bind {A B : Type} (m : result A) (k : A -> result B) : result B :=
  match m with
  | Ret a => k a
  | Raise e => Raise e
  end.

Notation "x <- m ;; k" := (bind m (fun x => k))
  (at level 61, m at next level, right associativity).

(** ** Arithmetic on floats *)

Module Float.

(** [inf * x] for a finite [x], or [-inf * x] when [pos] is false. *)
Definition scale_inf (pos : bool) (x : R) : float :=
  if Rlt_dec 0 x then (if pos then PInf else NInf)
  else if Rlt_dec x 0 then (if pos then NInf else PInf)
  else NaN.

Definition neg (a : float) : float :=
  match a with
  | Fin x => Fin (- x)
  | PInf => NInf
  | NInf => PInf
  | NaN => NaN
  end.

Definition add (a b : float) : float :=
  match a, b with
  | NaN, _ | _, NaN => NaN
  | Fin x, Fin y => Fin (x + y)
  | PInf, NInf | NInf, PInf => NaN
  | PInf, _ | _, PInf => PInf
  | NInf, _ | _, NInf => NInf
  end.

Definition sub (a b : float) : float := add a (neg b).

Definition mul (a b : float) : float :=
  match a, b with
  | NaN, _ | _, NaN => NaN
  | Fin x, Fin y => Fin (x * y)
  | PInf, Fin x | Fin x, PInf => scale_inf true x
  | NInf, Fin x | Fin x, NInf => scale_inf false x
  | PInf, PInf | NInf, NInf => PInf
  | PInf, NInf | NInf, PInf => NInf
  end.

(** Division of numpy scalars: a zero divisor gives inf or NaN. *)
Definition div (a b : float) : float :=
  match a, b with
  | NaN, _ | _, NaN => NaN
  | Fin x, Fin y => if Req_dec_T y 0 then scale_inf true x else Fin (x / y)
  | Fin _, _ => Fin 0
  | PInf, Fin y => if Rlt_dec y 0 then NInf else PInf
  | NInf, Fin y => if Rlt_dec y 0 then PInf else NInf
  | _, _ => NaN
  end.

(** [a / b] on Python floats: a zero divisor raises.  (On a divisor that is
    not zero, Python floats and numpy scalars divide alike.) *)
Definition truediv (a b : float) : result float :=
  match b with
  | Fin y => if Req_dec_T y 0 then Raise ZeroDivisionError else Ret (div a b)
  | _ => Ret (div a b)
  end.

(** [a ** 2]. *)
Definition sqr (a : float) : float :=
  match a with
  | Fin x => Fin (x ^ 2)
  | PInf | NInf => PInf
  | NaN => NaN
  end.

End Float.

(** ** numpy and scipy functions *)

Module np.

Definition log (a : float) : float :=
  match a with
  | Fin x => if Rlt_dec 0 x then Fin (ln x)
             else if Rlt_dec x 0 then NaN else NInf
  | PInf => PInf
  | _ => NaN
  end.

Definition sqrt (a : float) : float :=
  match a with
  | Fin x => if Rle_dec 0 x then Fin (R_sqrt.sqrt x) else NaN
  | PInf => PInf
  | _ => NaN
  end.

Definition exp (a : float) : float :=
  match a with
  | Fin x => Fin (Rtrigo_def.exp x)
  | PInf => PInf
  | NInf => Fin 0
  | NaN => NaN
  end.

End np.

Module norm.

Definition cdf (a : float) : float :=
  match a with
  | Fin x => Fin (Normal.norm_cdf x)
  | PInf => Fin 1
  | NInf => Fin 0
  | NaN => NaN
  end.

Definition pdf (a : float) : float :=
  match a with
  | Fin x => Fin (Normal.norm_pdf x)
  | PInf | NInf => Fin 0
  | NaN => NaN
  end.

End norm.

Declare Scope float_scope.
Delimit Scope float_scope with float.
Bind Scope float_scope with float.
Infix "+" := Float.add : float_scope.
Infix "-" := Float.sub : float_scope.
Infix "*" := Float.mul : float_scope.
Infix "/" := Float.div : float_scope.
Notation "- a" := (Float.neg a) : float_scope.

(** ** The pricing functions of app.py *)

Section Pricing.

Local Open Scope float_scope.

Variables S K T r sigma : float.

(** [(np.log(S / K) + (r + 0.5 * sigma ** 2) * T) / (sigma * np.sqrt(T))].
    [S / K] divides the two arguments as Python floats; every other
    division has a numpy scalar as operand. *)
Definition d1 : result float :=
  q <- Float.truediv S K ;;
  Ret ((np.log q + (r + Fin 0.5 * Float.sqr sigma) * T) / (sigma * np.sqrt T)).

(** [d1(S, K, T, r, sigma) - sigma * np.sqrt(T)]. *)
Definition d2 : result float :=
  D1 <- d1 ;;
  Ret (D1 - sigma * np.sqrt T).

(** Returns [(call_price, put_price)]. *)
Definition black_scholes : result (float * float) :=
  D1 <- d1 ;;
  D2 <- d2 ;;
  let call_price := S * norm.cdf D1 - K * np.exp (- r * T) * norm.cdf D2 in
  let put_price := K * np.exp (- r * T) * norm.cdf (- D2) - S * norm.cdf (- D1) in
  Ret (call_price, put_price).

(** Returns [(delta, theta, vega, rho)]. *)
Definition calculate_greeks : result (float * float * float * float) :=
  D1 <- d1 ;;
  D2 <- d2 ;;
  let delta := norm.cdf D1 in
  let theta := - ((S * norm.pdf D1 * sigma) / (Fin 2 * np.sqrt T))
               - r * K * np.exp (- r * T) * norm.cdf D2 in
  let vega := S * norm.pdf D1 * np.sqrt T in
  let rho := K * T * np.exp (- r * T) * norm.cdf D2 in
  Ret (delta, theta, vega, rho).

End Pricing.

(** ** Closed forms over the reals

    The formulas as the specification writes them, over real numbers; the
    functions above are compared with them in Part III. *)

Module Formula.

Import Normal.

Section Formula.

Variables S K T r sigma : R.

Definition d1 : R := (ln (S / K) + (r + 0.5 * sigma ^ 2) * T) / (sigma * sqrt T).
Definition d2 : R := d1 - sigma * sqrt T.

Definition callPrice : R := S * norm_cdf d1 - K * exp (- r * T) * norm_cdf d2.
Definition putPrice : R := K * exp (- r * T) * norm_cdf (- d2) - S * norm_cdf (- d1).

Definition delta : R := norm_cdf d1.
Definition theta : R :=
  - (S * norm_pdf d1 * sigma) / (2 * sqrt T) - r * K * exp (- r * T) * norm_cdf d2.
Definition vega : R := S * norm_pdf d1 * sqrt T.
Definition rho : R := K * T * exp (- r * T) * norm_cdf d2.

End Formula.

End Formula.

(** A valid input: spot, strike, maturity and volatility are positive. *)
Definition valid (S K T sigma : R) : Prop := 0 < S /\ 0 < K /\ 0 < T /\ 0 < sigma.

(** * Part II: analysis *)

(** ** Monotonicity from derivatives *)

Section Derivatives.

Variables f f' : R -> R.
Hypothesis f_deriv : forall x, derivable_pt_lim f x (f' x).

Let f_derivable : derivable f := fun x => exist _ (f' x) (f_deriv x).

Lemma deriv_nonneg_incr :
  (forall x, 0 <= f' x) -> forall x y, x <= y -> f x <= f y.
Proof.
  intro H. apply (nonneg_derivative_1 f f_derivable). intro x. apply H.
Qed.

Lemma deriv_nonpos_decr :
  (forall x, f' x <= 0) -> forall x y, x <= y -> f y <= f x.
Proof.
  intro H. apply (nonpos_derivative_1 f f_derivable). intro x. apply H.
Qed.

Lemma deriv_pos_incr :
  (forall x, 0 < f' x) -> forall x y, x < y -> f x < f y.
Proof.
  intro H. apply (positive_derivative f f_derivable). intro x. apply H.
Qed.

Lemma deriv_null_const : (forall x, f' x = 0) -> forall x y, f x = f y.
Proof.
  intro H. apply (null_derivative_1 f f_derivable). intro x. apply H.
Qed.

(** Mean value theorem, in the form of a bound on increments. *)
Lemma deriv_increment_bound (a b M : R) :
  (forall c, Rmin a b <= c <= Rmax a b -> Rabs (f' c) <= M) ->
  Rabs (f b - f a) <= M * Rabs (b - a).
Proof.
  intro H.
  destruct (MVT_abs f f' a b (fun c _ => f_deriv c)) as [c [E Hc]].
  rewrite E. apply Rmult_le_compat_r; [apply Rabs_pos | apply H, Hc].
Qed.

End Derivatives.

(** A function with a quadratic remainder at [x] is derivable there. *)
Lemma quadratic_remainder_deriv (f : R -> R) (x l M : R) :
  (forall h, Rabs (f (x + h) - f x - h * l) <= M * (h * h)) ->
  derivable_pt_lim f x l.
Proof.
  intros H eps Heps.
  assert (HM : 0 <= M).
  { specialize (H 1). pose proof (Rabs_pos (f (x + 1) - f x - 1 * l)). lra. }
  assert (Hd : 0 < eps / (M + 1)) by (apply Rdiv_lt_0_compat; lra).
  exists (mkposreal _ Hd). intros h Hh Hlt. simpl in Hlt.
  replace ((f (x + h) - f x) / h - l) with ((f (x + h) - f x - h * l) / h)
    by (field; exact Hh).
  unfold Rdiv. rewrite Rabs_mult, Rabs_inv.
  assert (Hah : 0 < Rabs h) by (apply Rabs_pos_lt, Hh).
  apply Rle_lt_trans with (M * (h * h) * / Rabs h).
  - apply Rmult_le_compat_r; [left; apply Rinv_0_lt_compat, Hah | apply H].
  - replace (h * h) with (Rabs h * Rabs h)
      by (rewrite <- Rabs_mult; apply Rabs_pos_eq; nra).
    replace (M * (Rabs h * Rabs h) * / Rabs h) with (M * Rabs h) by (field; lra).
    apply Rle_lt_trans with ((M + 1) * Rabs h); [nra|].
    apply Rmult_lt_reg_r with (/ (M + 1)); [apply Rinv_0_lt_compat; lra|].
    replace ((M + 1) * Rabs h * / (M + 1)) with (Rabs h) by (field; lra).
    exact Hlt.
Qed.

Lemma continuity_pt_ext (f g : R -> R) (x : R) :
  (forall z, f z = g z) -> continuity_pt f x -> continuity_pt g x.
Proof.
  intros E Hf eps Heps. destruct (Hf eps Heps) as [d [Hd Hx]].
  exists d. split; [exact Hd|]. intros y Hy. rewrite <- !E. apply Hx, Hy.
Qed.

Lemma linear_deriv (q x : R) : derivable_pt_lim (fun t => t * q) x q.
Proof.
  apply quadratic_remainder_deriv with (M := 0). intro h.
  replace ((x + h) * q - x * q - h * q) with 0 by ring.
  rewrite Rabs_R0. lra.
Qed.

(** ** The fundamental theorem of calculus *)

Section IntegralFacts.

Variable f : R -> R.
Hypothesis f_cont : continuity f.

Lemma integral_refl (a : R) : integral f f_cont a a = 0.
Proof. unfold integral. apply RiemannInt_P9. Qed.

Lemma integral_chasles (a b c : R) : integral f f_cont a c = integral f f_cont a b + integral f f_cont b c.
Proof. unfold integral. symmetry. apply RiemannInt_P26. Qed.

(** Fundamental theorem of calculus: the integral is an antiderivative. *)
Lemma integral_deriv (a x : R) : derivable_pt_lim (integral f f_cont a) x (f x).
Proof.
  assert (Hab : x - 1 <= x + 1) by lra.
  assert (C0 : forall y, x - 1 <= y <= x + 1 -> continuity_pt f y)
    by (intros; apply f_cont).
  assert (HP : forall y, x - 1 <= y <= x + 1 ->
             integral f f_cont a y = integral f f_cont a (x - 1) + primitive Hab (FTC_P1 Hab C0) y).
  { intros y [Hy1 Hy2]. rewrite (integral_chasles a (x - 1) y). f_equal.
    unfold primitive.
    destruct (Rle_dec (x - 1) y) as [H1 | H1]; [|lra].
    destruct (Rle_dec y (x + 1)) as [H2 | H2]; [|lra].
    apply RiemannInt_P5. }
  assert (HD : derivable_pt_lim (primitive Hab (FTC_P1 Hab C0)) x (f x))
    by (apply RiemannInt_P27; lra).
  intros eps Heps. destruct (HD eps Heps) as [delta Hdelta].
  assert (Hm : 0 < Rmin delta 1) by (apply Rmin_pos; [apply cond_pos | lra]).
  exists (mkposreal _ Hm). intros h Hh Hlt. simpl in Hlt.
  assert (Hh1 : Rabs h < 1) by (eapply Rlt_le_trans; [exact Hlt | apply Rmin_r]).
  assert (Hhd : Rabs h < delta) by (eapply Rlt_le_trans; [exact Hlt | apply Rmin_l]).
  apply Rabs_def2 in Hh1.
  rewrite (HP (x + h)), (HP x) by lra.
  replace (integral f f_cont a (x - 1) + primitive Hab (FTC_P1 Hab C0) (x + h) -
           (integral f f_cont a (x - 1) + primitive Hab (FTC_P1 Hab C0) x))
    with (primitive Hab (FTC_P1 Hab C0) (x + h) - primitive Hab (FTC_P1 Hab C0) x)
    by lra.
  apply Hdelta; assumption.
Qed.

(** Any antiderivative computes the integral. *)
Lemma integral_antiderivative (F : R -> R) (a b : R) :
  (forall x, derivable_pt_lim F x (f x)) -> integral f f_cont a b = F b - F a.
Proof.
  intro HF.
  assert (H : forall x, derivable_pt_lim (fun x => integral f f_cont a x - F x) x (0 * x)).
  { intro x. replace (0 * x) with (f x - f x) by lra.
    apply (derivable_pt_lim_minus (integral f f_cont a) F); [apply integral_deriv | apply HF]. }
  pose proof (deriv_null_const _ _ H (fun t => Rmult_0_l t) b a) as E.
  simpl in E. rewrite integral_refl in E. lra.
Qed.

End IntegralFacts.

(** ** The Gaussian integral and the normal distribution *)

Module NormalFacts.

Import Normal.

(** The Gaussian kernel with weight [c]: [exp (- c x^2 / 2)]. *)
Definition wexp (c x : R) : R := exp (- c * (x * x) / 2).


Lemma gauss_wexp (t : R) : gauss t = wexp 1 t.
Proof. unfold gauss, wexp. f_equal. lra. Qed.

Lemma wexp_pos (c x : R) : 0 < wexp c x.
Proof. apply exp_pos. Qed.

Lemma wexp_le_1 (c x : R) : 0 <= c -> wexp c x <= 1.
Proof.
  intro Hc. unfold wexp. rewrite <- exp_0.
  destruct (Req_dec (- c * (x * x) / 2) 0) as [-> | Hne]; [right; reflexivity|].
  left. apply exp_increasing. nra.
Qed.

Lemma wexp_deriv (c x : R) : derivable_pt_lim (wexp c) x (- c * x * wexp c x).
Proof.
  unfold wexp.
  assert (Hin : derivable_pt_lim (fun x => - c * (x * x) / 2) x (- c * x)).
  { apply quadratic_remainder_deriv with (M := Rabs c / 2). intro h.
    replace (- c * ((x + h) * (x + h)) / 2 - - c * (x * x) / 2 - h * (- c * x))
      with (- (c / 2) * (h * h)) by field.
    rewrite Rabs_mult, Rabs_Ropp, (Rabs_pos_eq (h * h)) by nra.
    unfold Rdiv. rewrite Rabs_mult, (Rabs_pos_eq (/ 2)) by lra. lra. }
  replace (- c * x * exp (- c * (x * x) / 2))
    with (exp (- c * (x * x) / 2) * (- c * x)) by lra.
  apply (derivable_pt_lim_comp (fun x => - c * (x * x) / 2) exp); [exact Hin|].
  apply derivable_pt_lim_exp.
Qed.

Lemma gauss_pos (t : R) : 0 < gauss t.
Proof. apply exp_pos. Qed.

Lemma gauss_even (t : R) : gauss (- t) = gauss t.
Proof. unfold gauss. f_equal. lra. Qed.

Lemma gauss_deriv (t : R) : derivable_pt_lim gauss t (- t * gauss t).
Proof.
  apply (derivable_pt_lim_ext (wexp 1)).
  - intro z. symmetry. apply gauss_wexp.
  - rewrite gauss_wexp. replace (- t * wexp 1 t) with (- 1 * t * wexp 1 t) by lra.
    apply wexp_deriv.
Qed.



Lemma gauss_area_0 : gauss_area 0 = 0.
Proof. apply integral_refl. Qed.

Lemma gauss_area_deriv (x : R) : derivable_pt_lim gauss_area x (gauss x).
Proof. apply integral_deriv. Qed.

Lemma gauss_area_increasing (x y : R) : x < y -> gauss_area x < gauss_area y.
Proof. apply (deriv_pos_incr _ _ gauss_area_deriv), gauss_pos. Qed.

Lemma gauss_area_odd (x : R) : gauss_area (- x) = - gauss_area x.
Proof.
  assert (H : forall t, derivable_pt_lim
                (fun t => gauss_area t + gauss_area (- t)) t (0 * t)).
  { intro t. replace (0 * t) with (gauss t + gauss (- t) * -1)
      by (rewrite gauss_even; lra).
    apply (derivable_pt_lim_plus gauss_area (fun t => gauss_area (- t))).
    - apply gauss_area_deriv.
    - apply (derivable_pt_lim_comp Ropp gauss_area).
      + exact (derivable_pt_lim_opp id t 1 (derivable_pt_lim_id t)).
      + apply gauss_area_deriv. }
  pose proof (deriv_null_const _ _ H (fun t => Rmult_0_l t) x 0) as E.
  simpl in E. rewrite Ropp_0, gauss_area_0 in E. lra.
Qed.

(** *** The slope of the weighted kernel is Lipschitz *)

Definition wslope (c x : R) : R := - x * wexp c x.

Lemma wslope_deriv (c x : R) :
  derivable_pt_lim (wslope c) x ((c * (x * x) - 1) * wexp c x).
Proof.
  unfold wslope.
  replace ((c * (x * x) - 1) * wexp c x)
    with (- 1 * wexp c x + - x * (- c * x * wexp c x)) by ring.
  apply (derivable_pt_lim_mult Ropp (wexp c)).
  - exact (derivable_pt_lim_opp id x 1 (derivable_pt_lim_id x)).
  - apply wexp_deriv.
Qed.

Lemma wslope_deriv_bound (c x : R) :
  0 <= c -> Rabs ((c * (x * x) - 1) * wexp c x) <= 2.
Proof.
  intro Hc. pose proof (wexp_pos c x) as Hp. pose proof (wexp_le_1 c x Hc) as H1.
  assert (Hy : 0 <= c * (x * x)) by nra.
  assert (H2 : c * (x * x) * wexp c x <= 2).
  { pose proof (exp_ineq1_le (c * (x * x) / 2)) as Hexp.
    assert (E : wexp c x * exp (c * (x * x) / 2) = 1).
    { unfold wexp. rewrite <- exp_plus, <- exp_0. f_equal. field. }
    assert (c * (x * x) / 2 * wexp c x <= exp (c * (x * x) / 2) * wexp c x)
      by (apply Rmult_le_compat_r; lra).
    lra. }
  apply Rabs_le. nra.
Qed.

Lemma wslope_lipschitz (c x y : R) :
  0 <= c -> Rabs (wslope c y - wslope c x) <= 2 * Rabs (y - x).
Proof.
  intro Hc. apply (deriv_increment_bound _ _ (wslope_deriv c)).
  intros t _. apply wslope_deriv_bound, Hc.
Qed.

(** Second-order remainder of [wexp c / c], uniform in the weight. *)
Lemma wexp_remainder (c x h : R) :
  0 < c ->
  Rabs (wexp c (x + h) / c - wexp c x / c - h * wslope c x) <= 2 * (h * h).
Proof.
  intro Hc.
  assert (HD : forall t, derivable_pt_lim
                 (fun t => wexp c t / c - t * wslope c x) t
                 (wslope c t - wslope c x)).
  { intro t.
    apply (derivable_pt_lim_minus (fun t => wexp c t / c) (fun t => t * wslope c x)).
    - replace (wslope c t) with (/ c * (- c * t * wexp c t))
        by (unfold wslope; field; lra).
      apply (derivable_pt_lim_ext (mult_real_fct (/ c) (wexp c))).
      + intro z. unfold mult_real_fct. field. lra.
      + apply derivable_pt_lim_scal, wexp_deriv.
    - apply linear_deriv. }
  pose proof (deriv_increment_bound _ _ HD x (x + h) (2 * Rabs h)) as B.
  cbv beta in B.
  replace (wexp c (x + h) / c - (x + h) * wslope c x
           - (wexp c x / c - x * wslope c x))
    with (wexp c (x + h) / c - wexp c x / c - h * wslope c x) in B by ring.
  replace (x + h - x) with h in B by ring.
  replace (h * h) with (Rabs h * Rabs h)
    by (rewrite <- Rabs_mult; apply Rabs_pos_eq; nra).
  rewrite <- Rmult_assoc. apply B.
  intros t Ht.
  apply Rle_trans with (2 * Rabs (t - x)); [apply wslope_lipschitz; lra|].
  apply Rmult_le_compat_l; [lra|].
  apply Rabs_le.
  unfold Rmin, Rmax in Ht. pose proof (Rabs_pos h).
  destruct (Rle_dec x (x + h)) as [Hle | Hnle].
  - rewrite (Rabs_pos_eq h) by lra. lra.
  - rewrite (Rabs_left h) by lra. lra.
Qed.

(** *** The parametric integral of Laplace *)

Definition laplace_kernel (x u : R) : R := wexp (1 + u * u) x / (1 + u * u).
Definition laplace_slope (x u : R) : R := wslope (1 + u * u) x.

Lemma wexp_split (x u : R) : wexp (1 + u * u) x = gauss x * gauss (u * x).
Proof. unfold wexp, gauss. rewrite <- exp_plus. f_equal. field. Qed.

Lemma scaled_area_deriv (x u : R) :
  derivable_pt_lim (fun u => gauss_area (u * x)) u (gauss (u * x) * x).
Proof.
  apply (derivable_pt_lim_comp (fun u => u * x) gauss_area).
  - apply linear_deriv.
  - apply gauss_area_deriv.
Qed.

Lemma scaled_gauss_cont (x : R) : continuity (fun u => gauss (u * x)).
Proof.
  intro u. apply derivable_continuous_pt.
  exists (- (u * x) * gauss (u * x) * x).
  apply (derivable_pt_lim_comp (fun u => u * x) gauss).
  - apply linear_deriv.
  - apply gauss_deriv.
Qed.

Lemma laplace_slope_cont (x : R) : continuity (laplace_slope x).
Proof.
  intro u.
  apply (continuity_pt_ext (fun u => (- x * gauss x) * gauss (u * x))).
  - intro t. unfold laplace_slope, wslope. rewrite wexp_split. ring.
  - apply (continuity_pt_scal (fun u => gauss (u * x))), scaled_gauss_cont.
Qed.

Lemma laplace_kernel_cont (x : R) : continuity (laplace_kernel x).
Proof.
  intro u.
  apply (continuity_pt_ext
           (mult_fct (fun u => gauss x * gauss (u * x))
                     (inv_fct (fun u => 1 + u * u)))).
  - intro t. unfold laplace_kernel, mult_fct, inv_fct. rewrite wexp_split. reflexivity.
  - apply continuity_pt_mult.
    + apply (continuity_pt_scal (fun u => gauss (u * x))), scaled_gauss_cont.
    + apply continuity_pt_inv; [|nra].
      apply derivable_continuous_pt. exists (2 * u).
      apply quadratic_remainder_deriv with (M := 1). intro h.
      replace (1 + (u + h) * (u + h) - (1 + u * u) - h * (2 * u)) with (h * h) by ring.
      rewrite Rabs_pos_eq by nra. lra.
Qed.

Definition laplace (x : R) : R := integral (laplace_kernel x) (laplace_kernel_cont x) 0 1.

Lemma laplace_slope_integral (x : R) :
  integral (laplace_slope x) (laplace_slope_cont x) 0 1 = - gauss x * gauss_area x.
Proof.
  rewrite (integral_antiderivative _ _ (fun u => - gauss x * gauss_area (u * x))).
  - rewrite Rmult_1_l, Rmult_0_l, gauss_area_0. ring.
  - intro u. unfold laplace_slope, wslope. rewrite wexp_split.
    replace (- x * (gauss x * gauss (u * x)))
      with (- gauss x * (gauss (u * x) * x)) by ring.
    apply (derivable_pt_lim_scal (fun u => gauss_area (u * x))), scaled_area_deriv.
Qed.

(** Differentiation under the integral sign. *)
Lemma laplace_deriv (x : R) : derivable_pt_lim laplace x (- gauss x * gauss_area x).
Proof.
  apply quadratic_remainder_deriv with (M := 2). intro h.
  rewrite <- laplace_slope_integral. unfold laplace.
  pose (Fh := fun u =>
          integral (laplace_kernel (x + h)) (laplace_kernel_cont (x + h)) 0 u
          - integral (laplace_kernel x) (laplace_kernel_cont x) 0 u
          - h * integral (laplace_slope x) (laplace_slope_cont x) 0 u).
  assert (HD : forall u, derivable_pt_lim Fh u
                 (laplace_kernel (x + h) u - laplace_kernel x u
                  - h * laplace_slope x u)).
  { intro u. unfold Fh.
    apply (derivable_pt_lim_minus
             (fun u => integral (laplace_kernel (x + h)) (laplace_kernel_cont (x + h)) 0 u
                       - integral (laplace_kernel x) (laplace_kernel_cont x) 0 u)
             (fun u => h * integral (laplace_slope x) (laplace_slope_cont x) 0 u)).
    - apply (derivable_pt_lim_minus
               (integral (laplace_kernel (x + h)) (laplace_kernel_cont (x + h)) 0)
               (integral (laplace_kernel x) (laplace_kernel_cont x) 0));
        apply integral_deriv.
    - apply (derivable_pt_lim_scal
               (integral (laplace_slope x) (laplace_slope_cont x) 0)),
        integral_deriv. }
  assert (H0 : Fh 0 = 0) by (unfold Fh; rewrite !integral_refl; ring).
  pose proof (deriv_increment_bound _ _ HD 0 1 (2 * (h * h))) as B.
  rewrite H0 in B. replace (1 - 0) with 1 in B by ring.
  rewrite Rabs_R1, Rmult_1_r, Rminus_0_r in B.
  apply B. intros u _. apply wexp_remainder. nra.
Qed.

Lemma laplace_0 : laplace 0 = PI / 4.
Proof.
  unfold laplace. rewrite (integral_antiderivative _ _ atan).
  - rewrite atan_1, atan_0. ring.
  - intro u. unfold laplace_kernel, wexp.
    replace (exp (- (1 + u * u) * (0 * 0) / 2) / (1 + u * u)) with (/ (1 + u ^ 2)).
    + apply derivable_pt_lim_atan.
    + replace (- (1 + u * u) * (0 * 0) / 2) with 0 by field.
      rewrite exp_0. field. nra.
Qed.

(** The identity of Laplace: [gauss_area x ^ 2 / 2 + laplace x = PI / 4]. *)
Lemma laplace_identity (x : R) : gauss_area x * gauss_area x / 2 + laplace x = PI / 4.
Proof.
  assert (H : forall t, derivable_pt_lim
                (fun t => gauss_area t * gauss_area t / 2 + laplace t) t (0 * t)).
  { intro t.
    replace (0 * t) with (gauss_area t * gauss t + - gauss t * gauss_area t) by ring.
    apply (derivable_pt_lim_plus (fun t => gauss_area t * gauss_area t / 2) laplace);
      [|apply laplace_deriv].
    replace (gauss_area t * gauss t)
      with (/ 2 * (gauss t * gauss_area t + gauss_area t * gauss t)) by field.
    apply (derivable_pt_lim_ext (mult_real_fct (/ 2) (gauss_area * gauss_area)%F)).
    - intro z. unfold mult_real_fct, mult_fct. field.
    - apply derivable_pt_lim_scal, derivable_pt_lim_mult; apply gauss_area_deriv. }
  pose proof (deriv_null_const _ _ H (fun t => Rmult_0_l t) x 0) as E.
  cbv beta in E. rewrite gauss_area_0, laplace_0 in E. lra.
Qed.

Lemma laplace_bounds (x : R) : 0 <= laplace x <= gauss x.
Proof.
  unfold laplace. split.
  - rewrite <- (integral_refl (laplace_kernel x) (laplace_kernel_cont x) 0) at 1.
    apply (deriv_nonneg_incr _ _ (integral_deriv _ (laplace_kernel_cont x) 0)); [|lra].
    intro u. unfold laplace_kernel.
    left. apply Rdiv_lt_0_compat; [apply wexp_pos | nra].
  - assert (HD : forall u, derivable_pt_lim
                   (fun u => u * gauss x
                             - integral (laplace_kernel x) (laplace_kernel_cont x) 0 u)
                   u (gauss x - laplace_kernel x u)).
    { intro u. apply (derivable_pt_lim_minus (fun u => u * gauss x)).
      - apply linear_deriv.
      - apply integral_deriv. }
    assert (Hpos : forall u, 0 <= gauss x - laplace_kernel x u).
    { intro u. unfold laplace_kernel. rewrite wexp_split.
      pose proof (gauss_pos x) as Hg. pose proof (gauss_pos (u * x)) as Hgu.
      assert (Hle : gauss (u * x) <= 1)
        by (rewrite gauss_wexp; apply wexp_le_1; lra).
      assert (Hc : / (1 + u * u) <= 1).
      { rewrite <- Rinv_1 at 2. apply Rinv_le_contravar; nra. }
      assert (Hci : 0 < / (1 + u * u)) by (apply Rinv_0_lt_compat; nra).
      assert (Hp : gauss (u * x) * / (1 + u * u) <= 1 * 1)
        by (apply Rmult_le_compat; lra).
      unfold Rdiv. rewrite Rmult_assoc.
      assert (gauss x * (gauss (u * x) * / (1 + u * u)) <= gauss x * (1 * 1))
        by (apply Rmult_le_compat_l; lra).
      lra. }
    pose proof (deriv_nonneg_incr _ _ HD Hpos 0 1 ltac:(lra)) as E.
    cbv beta in E. rewrite integral_refl in E. lra.
Qed.

(** *** The Gaussian integral *)


Lemma gauss_mass_pos : 0 < gauss_mass.
Proof. apply sqrt_lt_R0. pose proof PI_RGT_0. lra. Qed.

Lemma gauss_mass_sqr : gauss_mass * gauss_mass = 2 * PI.
Proof. apply sqrt_sqrt. pose proof PI_RGT_0. lra. Qed.

Lemma gauss_area_sqr_bounds (x : R) :
  gauss_mass * gauss_mass / 4 - 2 * gauss x <= gauss_area x * gauss_area x
  /\ gauss_area x * gauss_area x <= gauss_mass * gauss_mass / 4.
Proof.
  rewrite gauss_mass_sqr.
  pose proof (laplace_identity x). pose proof (laplace_bounds x). lra.
Qed.

(** The area under the kernel stays below half of the total mass ... *)
Lemma gauss_area_lt_half (x : R) : gauss_area x < gauss_mass / 2.
Proof.
  apply Rlt_le_trans with (gauss_area (x + 1)).
  - apply gauss_area_increasing. lra.
  - pose proof gauss_mass_pos as HZ.
    destruct (gauss_area_sqr_bounds (x + 1)) as [_ H].
    apply Rnot_lt_le. intro Hlt. nra.
Qed.

Lemma gauss_small (eta : R) : 0 < eta -> exists y, 0 <= y /\ gauss y < eta.
Proof.
  intro Heta.
  assert (Hi : 0 < / eta) by (apply Rinv_0_lt_compat, Heta).
  exists (2 * / eta + 1). split; [lra|].
  set (y := 2 * / eta + 1).
  assert (Hy : / eta < 1 + y * y / 2) by (unfold y; nra).
  pose proof (exp_ineq1_le (y * y / 2)) as Hexp.
  assert (E : gauss y * exp (y * y / 2) = 1).
  { unfold gauss. rewrite <- exp_plus, <- exp_0. f_equal. field. }
  pose proof (gauss_pos y) as Hg.
  assert (Hlt : gauss y * / eta < 1).
  { rewrite <- E. apply Rmult_lt_compat_l; lra. }
  apply Rmult_lt_reg_r with (/ eta); [exact Hi|].
  rewrite Rinv_r by lra. exact Hlt.
Qed.

(** ... and comes arbitrarily close to it. *)
Lemma gauss_area_approx (eta : R) :
  0 < eta -> exists y, gauss_mass / 2 - eta < gauss_area y.
Proof.
  intro Heta. pose proof gauss_mass_pos as HZ.
  destruct (Rlt_dec (gauss_mass / 2) eta) as [Hbig | Hsmall].
  - exists 0. rewrite gauss_area_0. lra.
  - destruct (gauss_small (eta * gauss_mass / 4)) as [y [Hy Hg]]; [nra|].
    exists y. apply Rnot_le_lt. intro Hle.
    destruct (gauss_area_sqr_bounds y) as [Hlow _].
    assert (H0 : 0 <= gauss_area y).
    { rewrite <- gauss_area_0. destruct Hy as [Hy | <-]; [|lra].
      left. apply gauss_area_increasing, Hy. }
    assert (Hsq : gauss_area y * gauss_area y
                  <= (gauss_mass / 2 - eta) * (gauss_mass / 2 - eta)) by nra.
    nra.
Qed.

Lemma norm_cdf_0 : norm_cdf 0 = 1 / 2.
Proof. unfold norm_cdf. rewrite gauss_area_0. lra. Qed.

Lemma norm_pdf_0 : norm_pdf 0 = / sqrt (2 * PI).
Proof.
  unfold norm_pdf, gauss, gauss_mass.
  replace (- (0 * 0) / 2) with 0 by lra. rewrite exp_0. lra.
Qed.

Lemma norm_pdf_pos (x : R) : 0 < norm_pdf x.
Proof.
  unfold norm_pdf. apply Rdiv_lt_0_compat; [apply gauss_pos | apply gauss_mass_pos].
Qed.

Lemma norm_pdf_even (x : R) : norm_pdf (- x) = norm_pdf x.
Proof. unfold norm_pdf. rewrite gauss_even. reflexivity. Qed.

(** The density is the derivative of the distribution function. *)
Lemma norm_cdf_deriv (x : R) : derivable_pt_lim norm_cdf x (norm_pdf x).
Proof.
  unfold norm_pdf, Rdiv.
  replace (gauss x * / gauss_mass) with (0 + / gauss_mass * gauss x) by lra.
  apply (derivable_pt_lim_plus (fun _ => 1 / 2)
           (fun x => gauss_area x / gauss_mass)).
  - apply derivable_pt_lim_const.
  - apply (derivable_pt_lim_ext (mult_real_fct (/ gauss_mass) gauss_area)).
    + intro t. unfold mult_real_fct. lra.
    + apply derivable_pt_lim_scal, gauss_area_deriv.
Qed.

(** Symmetry: [norm_cdf (-x) = 1 - norm_cdf x]. *)
Lemma norm_cdf_sym (x : R) : norm_cdf (- x) = 1 - norm_cdf x.
Proof. unfold norm_cdf. rewrite gauss_area_odd. lra. Qed.

Lemma norm_cdf_lt_1 (x : R) : norm_cdf x < 1.
Proof.
  unfold norm_cdf.
  pose proof gauss_mass_pos as HZ. pose proof (gauss_area_lt_half x) as Hx.
  assert (gauss_area x / gauss_mass < 1 / 2); [|lra].
  apply Rmult_lt_reg_r with gauss_mass; [exact HZ|].
  unfold Rdiv. rewrite Rmult_assoc, Rinv_l by lra. lra.
Qed.

Lemma norm_cdf_pos (x : R) : 0 < norm_cdf x.
Proof.
  pose proof (norm_cdf_lt_1 (- x)) as H. rewrite norm_cdf_sym in H. lra.
Qed.

Lemma norm_cdf_incr (x y : R) : x <= y -> norm_cdf x <= norm_cdf y.
Proof.
  apply (deriv_nonneg_incr _ _ norm_cdf_deriv).
  intro t. left. apply norm_pdf_pos.
Qed.

(** The distribution function vanishes at minus infinity ... *)
Lemma norm_cdf_lim_neg (eps : R) :
  0 < eps -> exists x0, forall x, x <= x0 -> norm_cdf x < eps.
Proof.
  intro Heps. pose proof gauss_mass_pos as HZ.
  destruct (gauss_area_approx (eps * gauss_mass)) as [y Hy]; [nra|].
  exists (- y). intros x Hx.
  apply Rle_lt_trans with (norm_cdf (- y)); [apply norm_cdf_incr; exact Hx|].
  unfold norm_cdf. rewrite gauss_area_odd.
  assert (H : (gauss_mass / 2 - gauss_area y) / gauss_mass < eps).
  { apply Rmult_lt_reg_r with gauss_mass; [exact HZ|].
    unfold Rdiv at 1. rewrite Rmult_assoc, Rinv_l by lra. lra. }
  replace (1 / 2 + - gauss_area y / gauss_mass)
    with ((gauss_mass / 2 - gauss_area y) / gauss_mass); [exact H|].
  field. lra.
Qed.

(** ... and tends to one at plus infinity. *)
Lemma norm_cdf_lim_pos (eps : R) :
  0 < eps -> exists x0, forall x, x0 <= x -> 1 - eps < norm_cdf x.
Proof.
  intro Heps. destruct (norm_cdf_lim_neg eps Heps) as [x0 H].
  exists (- x0). intros x Hx.
  specialize (H (- x) ltac:(lra)). rewrite norm_cdf_sym in H. lra.
Qed.

(** The kernel identity behind the pricing formulas. *)
Lemma gauss_shift (u s : R) : exp (s * u + s * s / 2) * gauss (u + s) = gauss u.
Proof.
  unfold gauss. rewrite <- exp_plus. f_equal. field.
Qed.

End NormalFacts.

(** ** Normalised price kernels

    With [s = sigma * sqrt T], [u = d2] and the discounted strike
    [D = K * exp (- r * T)], the call price is [D * call_kernel s u] and the
    put price is [D * put_kernel s u]. *)

Module Kernel.

Import Normal NormalFacts.

Definition growth (s u : R) : R := exp (s * u + s * s / 2).

Definition call_kernel (s u : R) : R :=
  growth s u * norm_cdf (u + s) - norm_cdf u.

Definition put_kernel (s u : R) : R :=
  norm_cdf (- u) - growth s u * norm_cdf (- (u + s)).

Lemma growth_pos (s u : R) : 0 < growth s u.
Proof. apply exp_pos. Qed.

Lemma growth_deriv (s u : R) : derivable_pt_lim (growth s) u (s * growth s u).
Proof.
  unfold growth.
  replace (s * exp (s * u + s * s / 2))
    with (exp (s * u + s * s / 2) * (s * 1 + 0)) by lra.
  apply (derivable_pt_lim_comp (fun u => s * u + s * s / 2) exp).
  - apply (derivable_pt_lim_plus (fun u => s * u) (fun _ => s * s / 2)).
    + apply (derivable_pt_lim_scal id s u 1), derivable_pt_lim_id.
    + apply derivable_pt_lim_const.
  - apply derivable_pt_lim_exp.
Qed.

Lemma growth_pdf (s u : R) : growth s u * norm_pdf (u + s) = norm_pdf u.
Proof.
  unfold growth, norm_pdf, Rdiv.
  rewrite <- Rmult_assoc, gauss_shift. reflexivity.
Qed.

Lemma shifted_cdf_deriv (s u : R) :
  derivable_pt_lim (fun u => norm_cdf (u + s)) u (norm_pdf (u + s)).
Proof.
  replace (norm_pdf (u + s)) with (norm_pdf (u + s) * (1 + 0)) by lra.
  apply (derivable_pt_lim_comp (fun u => u + s) norm_cdf).
  - apply (derivable_pt_lim_plus id (fun _ => s)).
    + apply derivable_pt_lim_id.
    + apply derivable_pt_lim_const.
  - apply norm_cdf_deriv.
Qed.

Lemma call_kernel_deriv (s u : R) :
  derivable_pt_lim (call_kernel s) u (s * growth s u * norm_cdf (u + s)).
Proof.
  unfold call_kernel.
  replace (s * growth s u * norm_cdf (u + s))
    with (s * growth s u * norm_cdf (u + s) + growth s u * norm_pdf (u + s)
          - norm_pdf u)
    by (rewrite growth_pdf; lra).
  apply (derivable_pt_lim_minus
           (fun u => growth s u * norm_cdf (u + s)) norm_cdf);
    [|apply norm_cdf_deriv].
  apply (derivable_pt_lim_mult (growth s) (fun u => norm_cdf (u + s))).
  - apply growth_deriv.
  - apply shifted_cdf_deriv.
Qed.

Lemma call_kernel_incr (s u v : R) :
  0 <= s -> u <= v -> call_kernel s u <= call_kernel s v.
Proof.
  intros Hs. apply (deriv_nonneg_incr _ _ (call_kernel_deriv s)).
  intro x. pose proof (growth_pos s x). pose proof (norm_cdf_pos (x + s)).
  apply Rmult_le_pos; [apply Rmult_le_pos|]; lra.
Qed.

(** The call kernel is non-negative: it is non-decreasing and its infimum,
    reached at minus infinity, is zero. *)
Lemma call_kernel_nonneg (s u : R) : 0 <= s -> 0 <= call_kernel s u.
Proof.
  intro Hs. apply Rnot_lt_le. intro Hneg.
  destruct (norm_cdf_lim_neg (- call_kernel s u)) as [x0 Hx0]; [lra|].
  pose proof (call_kernel_incr s (Rmin u x0) u Hs (Rmin_l _ _)) as Hle.
  specialize (Hx0 (Rmin u x0) (Rmin_r _ _)).
  unfold call_kernel at 1 in Hle.
  pose proof (growth_pos s (Rmin u x0)) as Hg.
  pose proof (norm_cdf_pos (Rmin u x0 + s)) as Hc.
  assert (0 < growth s (Rmin u x0) * norm_cdf (Rmin u x0 + s))
    by (apply Rmult_lt_0_compat; assumption).
  lra.
Qed.

(** Put-call parity on kernels. *)
Lemma put_call_kernel (s u : R) :
  call_kernel s u - put_kernel s u = growth s u - 1.
Proof.
  unfold call_kernel, put_kernel. rewrite !norm_cdf_sym. ring.
Qed.

Lemma put_kernel_decr (s u v : R) :
  0 <= s -> u <= v -> put_kernel s v <= put_kernel s u.
Proof.
  intros Hs.
  assert (HD : forall x, derivable_pt_lim (put_kernel s) x
                 (s * growth s x * norm_cdf (x + s) - s * growth s x)).
  { intro x.
    apply (derivable_pt_lim_ext
             (fun x => call_kernel s x - (fun x => growth s x - 1) x)%R).
    - intro t. pose proof (put_call_kernel s t). lra.
    - apply (derivable_pt_lim_minus (call_kernel s) (fun x => growth s x - 1)).
      + apply call_kernel_deriv.
      + replace (s * growth s x) with (s * growth s x - 0) by lra.
        apply (derivable_pt_lim_minus (growth s) (fun _ => 1)).
        * apply growth_deriv.
        * apply derivable_pt_lim_const. }
  apply (deriv_nonpos_decr _ _ HD).
  intro x. pose proof (growth_pos s x). pose proof (norm_cdf_lt_1 (x + s)).
  assert (0 <= s * growth s x) by (apply Rmult_le_pos; lra).
  nra.
Qed.

(** The put kernel is a call kernel seen from the other side. *)
Lemma put_kernel_mirror (s u : R) :
  growth s u * call_kernel s (- (u + s)) = put_kernel s u.
Proof.
  unfold call_kernel, put_kernel.
  replace (- (u + s) + s) with (- u) by lra.
  assert (E : growth s u * growth s (- (u + s)) = 1).
  { unfold growth. rewrite <- exp_plus, <- exp_0. f_equal. field. }
  rewrite Rmult_minus_distr_l, <- Rmult_assoc, E. ring.
Qed.

Lemma put_kernel_nonneg (s u : R) : 0 <= s -> 0 <= put_kernel s u.
Proof.
  intro Hs. rewrite <- put_kernel_mirror.
  apply Rmult_le_pos; [left; apply growth_pos | apply call_kernel_nonneg, Hs].
Qed.

End Kernel.

(** * Part III: the pricing functions *)

(** ** The functions on finite arguments *)

Lemma div_Fin (x y : R) : y <> 0 -> Float.div (Fin x) (Fin y) = Fin (x / y).
Proof.
  intro H. unfold Float.div. destruct (Req_dec_T y 0) as [E | _]; [contradiction|].
  reflexivity.
Qed.

Lemma truediv_Fin (x y : R) :
  y <> 0 -> Float.truediv (Fin x) (Fin y) = Ret (Fin (x / y)).
Proof.
  intro H. unfold Float.truediv.
  destruct (Req_dec_T y 0) as [E | _]; [contradiction|].
  rewrite div_Fin by exact H. reflexivity.
Qed.

Lemma log_Fin (x : R) : 0 < x -> np.log (Fin x) = Fin (ln x).
Proof.
  intro H. unfold np.log. destruct (Rlt_dec 0 x) as [_ | N]; [reflexivity | contradiction].
Qed.

Lemma sqrt_Fin (x : R) : 0 <= x -> np.sqrt (Fin x) = Fin (sqrt x).
Proof.
  intro H. unfold np.sqrt. destruct (Rle_dec 0 x) as [_ | N]; [reflexivity | contradiction].
Qed.

(** Evaluation of the operations that are total on finite values. *)
Ltac float_eval :=
  cbn [bind Float.add Float.sub Float.mul Float.neg Float.sqr
       np.exp norm.cdf norm.pdf].

Lemma vol_time_pos (T sigma : R) : 0 < T -> 0 < sigma -> 0 < sigma * sqrt T.
Proof.
  intros HT Hs. apply Rmult_lt_0_compat; [exact Hs | apply sqrt_lt_R0, HT].
Qed.

Section Valid.

Variables S K T r sigma : R.
Hypothesis Hvalid : valid S K T sigma.

Lemma d1_valid :
  d1 (Fin S) (Fin K) (Fin T) (Fin r) (Fin sigma) = Ret (Fin (Formula.d1 S K T r sigma)).
Proof.
  destruct Hvalid as (HS & HK & HT & Hs).
  pose proof (vol_time_pos T sigma HT Hs) as Hden.
  unfold d1. rewrite truediv_Fin by lra. float_eval.
  rewrite log_Fin by (apply Rdiv_lt_0_compat; assumption).
  rewrite sqrt_Fin by lra. float_eval.
  rewrite div_Fin by lra. reflexivity.
Qed.

Lemma d2_valid :
  d2 (Fin S) (Fin K) (Fin T) (Fin r) (Fin sigma) = Ret (Fin (Formula.d2 S K T r sigma)).
Proof.
  unfold d2. rewrite d1_valid. float_eval.
  rewrite sqrt_Fin by (unfold valid in Hvalid; lra). reflexivity.
Qed.

Lemma black_scholes_valid :
  black_scholes (Fin S) (Fin K) (Fin T) (Fin r) (Fin sigma)
  = Ret (Fin (Formula.callPrice S K T r sigma), Fin (Formula.putPrice S K T r sigma)).
Proof.
  unfold black_scholes. rewrite d1_valid, d2_valid. reflexivity.
Qed.

Lemma calculate_greeks_valid :
  calculate_greeks (Fin S) (Fin K) (Fin T) (Fin r) (Fin sigma)
  = Ret (Fin (Formula.delta S K T r sigma), Fin (Formula.theta S K T r sigma),
         Fin (Formula.vega S K T r sigma), Fin (Formula.rho S K T r sigma)).
Proof.
  destruct Hvalid as (HS & HK & HT & Hs).
  unfold calculate_greeks. rewrite d1_valid, d2_valid. float_eval.
  rewrite sqrt_Fin by lra. float_eval.
  rewrite div_Fin by (pose proof (sqrt_lt_R0 T HT); lra).
  float_eval.
  assert (E : forall a b c, - (a / b) + - c = - a / b - c)
    by (intros; unfold Rdiv; ring).
  rewrite E. reflexivity.
Qed.

End Valid.

(** ** Relation between the formulas and the kernels *)

Section KernelForm.

Import Normal NormalFacts Kernel.

Variables S K T r sigma : R.
Hypothesis Hvalid : valid S K T sigma.

Lemma discounted_strike_pos : 0 < K * exp (- r * T).
Proof.
  destruct Hvalid as (_ & HK & _).
  apply Rmult_lt_0_compat; [exact HK | apply exp_pos].
Qed.

Lemma spot_growth :
  S = K * exp (- r * T) * growth (sigma * sqrt T) (Formula.d2 S K T r sigma).
Proof.
  destruct Hvalid as (HS & HK & HT & Hs).
  pose proof (vol_time_pos T sigma HT Hs) as Hden.
  assert (Hsq : sqrt T * sqrt T = T) by (apply sqrt_sqrt; lra).
  unfold growth.
  replace (sigma * sqrt T * Formula.d2 S K T r sigma
           + sigma * sqrt T * (sigma * sqrt T) / 2)
    with (ln (S / K) + r * T).
  - rewrite exp_plus, exp_ln by (apply Rdiv_lt_0_compat; assumption).
    replace (- r * T) with (- (r * T)) by ring. rewrite exp_Ropp.
    pose proof (exp_pos (r * T)). field. split; lra.
  - unfold Formula.d2, Formula.d1.
    replace (sigma * sqrt T * (sigma * sqrt T) / 2)
      with (sigma ^ 2 * (sqrt T * sqrt T) / 2) by field.
    transitivity
      ((ln (S / K) + (r + 0.5 * sigma ^ 2) * T)
       - sigma ^ 2 * (sqrt T * sqrt T) + sigma ^ 2 * (sqrt T * sqrt T) / 2).
    + rewrite Hsq. lra.
    + pose proof (sqrt_lt_R0 T HT).
      replace 0.5 with (/ 2) by lra. field. split; lra.
Qed.

Lemma callPrice_kernel :
  Formula.callPrice S K T r sigma
  = K * exp (- r * T) * call_kernel (sigma * sqrt T) (Formula.d2 S K T r sigma).
Proof.
  unfold Formula.callPrice, call_kernel.
  rewrite spot_growth at 1.
  replace (Formula.d2 S K T r sigma + sigma * sqrt T)
    with (Formula.d1 S K T r sigma) by (unfold Formula.d2; ring).
  generalize (growth (sigma * sqrt T) (Formula.d2 S K T r sigma)),
    (norm_cdf (Formula.d1 S K T r sigma)), (norm_cdf (Formula.d2 S K T r sigma)),
    (exp (- r * T)).
  intros; ring.
Qed.

Lemma putPrice_kernel :
  Formula.putPrice S K T r sigma
  = K * exp (- r * T) * put_kernel (sigma * sqrt T) (Formula.d2 S K T r sigma).
Proof.
  unfold Formula.putPrice, put_kernel.
  replace (Formula.d2 S K T r sigma + sigma * sqrt T)
    with (Formula.d1 S K T r sigma) by (unfold Formula.d2; ring).
  pose proof spot_growth as E.
  transitivity
    (K * exp (- r * T) * norm_cdf (- Formula.d2 S K T r sigma)
     - K * exp (- r * T) * growth (sigma * sqrt T) (Formula.d2 S K T r sigma)
       * norm_cdf (- Formula.d1 S K T r sigma)).
  - rewrite <- E. reflexivity.
  - generalize (growth (sigma * sqrt T) (Formula.d2 S K T r sigma)),
      (norm_cdf (- Formula.d1 S K T r sigma)),
      (norm_cdf (- Formula.d2 S K T r sigma)), (exp (- r * T)).
    intros; ring.
Qed.

End KernelForm.

(** [d2] is non-decreasing in the spot. *)
Lemma d2_spot_incr (S1 S2 K T r sigma : R) :
  0 < S1 -> S1 <= S2 -> 0 < K -> 0 < T -> 0 < sigma ->
  Formula.d2 S1 K T r sigma <= Formula.d2 S2 K T r sigma.
Proof.
  intros HS1 HS HK HT Hs.
  pose proof (vol_time_pos T sigma HT Hs) as Hden.
  unfold Formula.d2, Formula.d1.
  assert (Hln : ln (S1 / K) <= ln (S2 / K)).
  { destruct HS as [HS | ->]; [left|right; reflexivity].
    apply ln_increasing.
    - apply Rdiv_lt_0_compat; assumption.
    - unfold Rdiv. apply Rmult_lt_compat_r; [apply Rinv_0_lt_compat, HK | exact HS]. }
  apply Rplus_le_compat_r.
  unfold Rdiv. apply Rmult_le_compat_r.
  - left. apply Rinv_0_lt_compat, Hden.
  - lra.
Qed.

(** ** Properties of the pricing functions *)

Import Normal NormalFacts.

















(** [d1] sees the spot and the strike through their ratio only. *)
Lemma d1_ratio (S K S' K' T r sigma : R) :
  S' / K' = S / K -> Formula.d1 S' K' T r sigma = Formula.d1 S K T r sigma.
Proof. intro E. unfold Formula.d1. rewrite E. reflexivity. Qed.

Lemma scaled_ratio (lam S K : R) : 0 < lam -> 0 < K -> lam * S / (lam * K) = S / K.
Proof. intros Hl HK. field. split; lra. Qed.



(** ** Inputs outside the domain *)

Lemma div_zero_zero (x y : R) : x = 0 -> y = 0 -> Float.div (Fin x) (Fin y) = NaN.
Proof.
  intros -> ->. unfold Float.div, Float.scale_inf.
  destruct (Req_dec_T 0 0) as [_ | N]; [|contradiction].
  destruct (Rlt_dec 0 0) as [H | _]; [lra | reflexivity].
Qed.

Lemma log_neg (x : R) : x < 0 -> np.log (Fin x) = NaN.
Proof.
  intro H. unfold np.log.
  destruct (Rlt_dec 0 x) as [H' | _]; [lra|].
  destruct (Rlt_dec x 0) as [_ | N]; [reflexivity | contradiction].
Qed.

Lemma truediv_zero (a : float) : Float.truediv a (Fin 0) = Raise ZeroDivisionError.
Proof.
  unfold Float.truediv. destruct (Req_dec_T 0 0) as [_ | N]; [reflexivity | contradiction].
Qed.

(** Once [d1] is NaN, so are both prices. *)
Lemma black_scholes_nan (S K T r sigma : float) :
  d1 S K T r sigma = Ret NaN -> black_scholes S K T r sigma = Ret (NaN, NaN).
Proof.
  intro E. unfold black_scholes, d2. rewrite E. cbn [bind norm.cdf Float.neg].
  unfold Float.sub.
  destruct (sigma * np.sqrt T)%float, S, (K * np.exp (- r * T))%float; reflexivity.
Qed.

Lemma d1_zero_maturity : d1 (Fin 100) (Fin 100) (Fin 0) (Fin 0) (Fin 0.25) = Ret NaN.
Proof.
  unfold d1. rewrite truediv_Fin by lra. float_eval.
  rewrite log_Fin, sqrt_Fin by lra. float_eval.
  rewrite div_zero_zero; [reflexivity | | rewrite sqrt_0; lra].
  replace (100 / 100) with 1 by lra. rewrite ln_1. lra.
Qed.

Lemma d1_zero_volatility : d1 (Fin 100) (Fin 100) (Fin 1) (Fin 0) (Fin 0) = Ret NaN.
Proof.
  unfold d1. rewrite truediv_Fin by lra. float_eval.
  rewrite log_Fin, sqrt_Fin by lra. float_eval.
  rewrite div_zero_zero; [reflexivity | | lra].
  replace (100 / 100) with 1 by lra. rewrite ln_1. lra.
Qed.

Lemma d1_negative_spot : d1 (Fin (-1)) (Fin 100) (Fin 1) (Fin 0) (Fin 0.25) = Ret NaN.
Proof.
  unfold d1. rewrite truediv_Fin by lra. float_eval.
  rewrite log_neg by lra. reflexivity.
Qed.

Lemma d1_zero_strike (S T r sigma : float) :
  d1 S (Fin 0) T r sigma = Raise ZeroDivisionError.
Proof. unfold d1. rewrite truediv_zero. reflexivity. Qed.

(** No input makes the functions signal [InvalidParameter]. *)
Lemma d1_never_invalid (S K T r sigma : float) :
  d1 S K T r sigma <> Raise InvalidParameter.
Proof.
  unfold d1, Float.truediv.
  destruct K as [y | | |]; try discriminate.
  destruct (Req_dec_T y 0); discriminate.
Qed.

Lemma black_scholes_never_invalid (S K T r sigma : float) :
  black_scholes S K T r sigma <> Raise InvalidParameter.
Proof.
  unfold black_scholes, d2.
  pose proof (d1_never_invalid S K T r sigma) as H.
  destruct (d1 S K T r sigma) as [D1 | e]; cbn [bind]; [discriminate|].
  intro E. apply H. inversion E. reflexivity.
Qed.

(** C3 (as claimed) fails: at [T = 0] no error is signalled, the engine
    returns the pair [(NaN, NaN)]. *)
Lemma zero_maturity_not_rejected :
  black_scholes (Fin 100) (Fin 100) (Fin 0) (Fin 0) (Fin 0.25) = Ret (NaN, NaN) /\
  black_scholes (Fin 100) (Fin 100) (Fin 0) (Fin 0) (Fin 0.25) <> Raise InvalidParameter.
Proof.
  rewrite (black_scholes_nan _ _ _ _ _ d1_zero_maturity). split; [reflexivity | discriminate].
Qed.

(** C3 (amended).  The engine validates nothing and never signals
    [InvalidParameter].  With the other parameters at [S = K = 100], [T = 1],
    [r = 0], [sigma = 0.25]: for [T = 0], for [sigma = 0] and for [S = -1]
    [black_scholes] returns [(NaN, NaN)]; for [K = 0] the division [S / K]
    of Python floats in [d1] raises [ZeroDivisionError]. *)
Theorem invalid_input_not_rejected :
  (forall S K T r sigma : float,
     d1 S K T r sigma <> Raise InvalidParameter /\
     black_scholes S K T r sigma <> Raise InvalidParameter) /\
  black_scholes (Fin 100) (Fin 100) (Fin 0) (Fin 0) (Fin 0.25) = Ret (NaN, NaN) /\
  black_scholes (Fin 100) (Fin 100) (Fin 1) (Fin 0) (Fin 0) = Ret (NaN, NaN) /\
  black_scholes (Fin (-1)) (Fin 100) (Fin 1) (Fin 0) (Fin 0.25) = Ret (NaN, NaN) /\
  black_scholes (Fin 100) (Fin 0) (Fin 1) (Fin 0) (Fin 0.25) = Raise ZeroDivisionError.
Proof.
  split; [intros; split; [apply d1_never_invalid | apply black_scholes_never_invalid]|].
  split; [apply black_scholes_nan, d1_zero_maturity|].
  split; [apply black_scholes_nan, d1_zero_volatility|].
  split; [apply black_scholes_nan, d1_negative_spot|].
  unfold black_scholes. rewrite d1_zero_strike. reflexivity.
Qed.

(** * Part IV: further properties of the pricing functions *)

(** ** Strict positivity and the mirrored form of the prices *)

Lemma call_kernel_pos (s u : R) : 0 < s -> 0 < Kernel.call_kernel s u.
Proof.
  intro Hs.
  apply Rle_lt_trans with (Kernel.call_kernel s (u - 1)).
  - apply Kernel.call_kernel_nonneg. lra.
  - apply (deriv_pos_incr _ _ (Kernel.call_kernel_deriv s)); [|lra].
    intro x. pose proof (Kernel.growth_pos s x). pose proof (norm_cdf_pos (x + s)).
    apply Rmult_lt_0_compat; [apply Rmult_lt_0_compat|]; assumption.
Qed.

Lemma put_kernel_pos (s u : R) : 0 < s -> 0 < Kernel.put_kernel s u.
Proof.
  intro Hs. rewrite <- Kernel.put_kernel_mirror.
  apply Rmult_lt_0_compat; [apply Kernel.growth_pos | apply call_kernel_pos, Hs].
Qed.

Lemma growth_inverse (s u : R) : Kernel.growth s u * Kernel.growth s (- (u + s)) = 1.
Proof. unfold Kernel.growth. rewrite <- exp_plus, <- exp_0. f_equal. field. Qed.

Section Mirror.

Variables S K T r sigma : R.
Hypothesis Hvalid : valid S K T sigma.

(** Seen from the spot, the put price is a call kernel in [- d1] ... *)
Lemma putPrice_mirror :
  Formula.putPrice S K T r sigma
  = S * Kernel.call_kernel (sigma * sqrt T) (- Formula.d1 S K T r sigma).
Proof.
  rewrite (putPrice_kernel S K T r sigma Hvalid).
  rewrite <- Kernel.put_kernel_mirror, <- Rmult_assoc.
  rewrite <- (spot_growth S K T r sigma Hvalid).
  do 2 f_equal. unfold Formula.d2. ring.
Qed.

(** ... and the call price a put kernel. *)
Lemma callPrice_mirror :
  Formula.callPrice S K T r sigma
  = S * Kernel.put_kernel (sigma * sqrt T) (- Formula.d1 S K T r sigma).
Proof.
  rewrite (callPrice_kernel S K T r sigma Hvalid).
  rewrite <- (Kernel.put_kernel_mirror _ (- Formula.d1 S K T r sigma)).
  replace (- (- Formula.d1 S K T r sigma + sigma * sqrt T))
    with (Formula.d2 S K T r sigma) by (unfold Formula.d2; ring).
  pose proof (growth_inverse (sigma * sqrt T) (Formula.d2 S K T r sigma)) as E.
  replace (- (Formula.d2 S K T r sigma + sigma * sqrt T))
    with (- Formula.d1 S K T r sigma) in E by (unfold Formula.d2; ring).
  pose proof (spot_growth S K T r sigma Hvalid) as HS.
  set (g := Kernel.growth (sigma * sqrt T) (Formula.d2 S K T r sigma)) in *.
  set (g' := Kernel.growth (sigma * sqrt T) (- Formula.d1 S K T r sigma)) in *.
  set (ck := Kernel.call_kernel (sigma * sqrt T) (Formula.d2 S K T r sigma)).
  set (D := K * exp (- r * T)) in *.
  clearbody g g' ck D. rewrite HS.
  replace (D * g * (g' * ck)) with (D * (g * g') * ck) by ring.
  rewrite E. ring.
Qed.

End Mirror.

(** [d1] is non-increasing in the strike. *)
Lemma d1_strike_decr (S K1 K2 T r sigma : R) :
  0 < S -> 0 < K1 -> K1 <= K2 -> 0 < T -> 0 < sigma ->
  Formula.d1 S K2 T r sigma <= Formula.d1 S K1 T r sigma.
Proof.
  intros HS HK1 HK HT Hs.
  pose proof (vol_time_pos T sigma HT Hs) as Hden.
  unfold Formula.d1.
  assert (Hln : ln (S / K2) <= ln (S / K1)).
  { destruct HK as [HK | ->]; [left|right; reflexivity].
    apply ln_increasing.
    - apply Rdiv_lt_0_compat; lra.
    - unfold Rdiv. apply Rmult_lt_compat_l; [exact HS|].
      apply Rinv_lt_contravar; [apply Rmult_lt_0_compat; lra | exact HK]. }
  unfold Rdiv at 1 3. apply Rmult_le_compat_r.
  - left. apply Rinv_0_lt_compat, Hden.
  - lra.
Qed.

Lemma formula_strike_monotone (S K1 K2 T r sigma : R) :
  0 < S -> 0 < K1 -> K1 <= K2 -> 0 < T -> 0 < sigma ->
  Formula.callPrice S K2 T r sigma <= Formula.callPrice S K1 T r sigma /\
  Formula.putPrice S K1 T r sigma <= Formula.putPrice S K2 T r sigma.
Proof.
  intros HS HK1 HK HT Hs.
  assert (Hv1 : valid S K1 T sigma) by (repeat split; assumption).
  assert (Hv2 : valid S K2 T sigma) by (repeat split; try assumption; lra).
  pose proof (d1_strike_decr S K1 K2 T r sigma HS HK1 HK HT Hs) as Hd.
  pose proof (vol_time_pos T sigma HT Hs) as Hden.
  rewrite !callPrice_mirror, !putPrice_mirror by assumption.
  split; apply Rmult_le_compat_l; try lra.
  - apply Kernel.put_kernel_decr; lra.
  - apply Kernel.call_kernel_incr; lra.
Qed.





(** Exchanging spot and strike and reversing the rate exchanges [d1] and
    [d2] up to sign. *)
Lemma d1_dual (S K T r sigma : R) :
  0 < S -> 0 < K -> 0 < T -> 0 < sigma ->
  Formula.d1 K S T (- r) sigma = - Formula.d2 S K T r sigma.
Proof.
  intros HS HK HT Hs.
  pose proof (vol_time_pos T sigma HT Hs) as Hden.
  pose proof (sqrt_lt_R0 T HT) as Hsq.
  assert (E : sqrt T * sqrt T = T) by (apply sqrt_sqrt; lra).
  unfold Formula.d2, Formula.d1.
  replace (ln (K / S)) with (- ln (S / K)).
  - replace 0.5 with (/ 2) by lra.
    transitivity
      ((- ln (S / K) + (- r + / 2 * sigma ^ 2) * (sqrt T * sqrt T))
       / (sigma * sqrt T)); [rewrite E; reflexivity|].
    transitivity
      (- ((ln (S / K) + (r + / 2 * sigma ^ 2) * (sqrt T * sqrt T))
          / (sigma * sqrt T) - sigma * sqrt T)); [|rewrite E; reflexivity].
    field. split; lra.
  - rewrite <- ln_Rinv by (apply Rdiv_lt_0_compat; assumption).
    f_equal. field. split; lra.
Qed.







(** ** Behaviour outside the domain *)

(** X6.  A zero strike stops every function: with [K = 0] the division
    [S / K] at the start of [d1] raises [ZeroDivisionError], whatever the
    other arguments, and [d2], [black_scholes] and [calculate_greeks] pass
    the exception on. *)
Theorem zero_strike_raises (S T r sigma : float) :
  d1 S (Fin 0) T r sigma = Raise ZeroDivisionError /\
  d2 S (Fin 0) T r sigma = Raise ZeroDivisionError /\
  black_scholes S (Fin 0) T r sigma = Raise ZeroDivisionError /\
  calculate_greeks S (Fin 0) T r sigma = Raise ZeroDivisionError.
Proof.
  unfold d2, black_scholes, calculate_greeks.
  rewrite d1_zero_strike. repeat split; reflexivity.
Qed.

Lemma mul_nan_r (a : float) : Float.mul a NaN = NaN.
Proof. destruct a; reflexivity. Qed.

Lemma add_nan_r (a : float) : Float.add a NaN = NaN.
Proof. destruct a; reflexivity. Qed.

Lemma div_nan_r (a : float) : Float.div a NaN = NaN.
Proof. destruct a; reflexivity. Qed.

(** Once [d1] is NaN, so are all four Greeks. *)
Lemma calculate_greeks_nan (S K T r sigma : float) :
  d1 S K T r sigma = Ret NaN ->
  calculate_greeks S K T r sigma = Ret (NaN, NaN, NaN, NaN).
Proof.
  intro E. unfold calculate_greeks, d2. rewrite E.
  cbn [bind norm.cdf norm.pdf Float.neg].
  rewrite (mul_nan_r S).
  replace (NaN - sigma * np.sqrt T)%float with NaN by reflexivity.
  cbn [norm.cdf]. rewrite !mul_nan_r. reflexivity.
Qed.

(** [d1] is NaN as soon as an argument is NaN, the ratio [S / K] is negative
    or the maturity is negative. *)
Lemma d1_nan (S K T r sigma : float) :
  K <> Fin 0 ->
  S = NaN \/ K = NaN \/ T = NaN \/ r = NaN \/ sigma = NaN
  \/ (exists x y, S = Fin x /\ K = Fin y /\ x / y < 0)
  \/ (exists t, T = Fin t /\ t < 0) ->
  d1 S K T r sigma = Ret NaN.
Proof.
  intros HK H. unfold d1.
  assert (Hq : Float.truediv S K = Ret (Float.div S K)).
  { unfold Float.truediv. destruct K as [y | | |]; try reflexivity.
    destruct (Req_dec_T y 0) as [-> | _]; [contradiction | reflexivity]. }
  rewrite Hq. cbn [bind].
  destruct H as [-> | [-> | [-> | [-> | [-> | [(x & y & -> & -> & Hneg) | (t & -> & Ht)]]]]]].
  - reflexivity.
  - rewrite div_nan_r. reflexivity.
  - rewrite mul_nan_r, add_nan_r. reflexivity.
  - cbn [Float.add Float.mul]. rewrite add_nan_r. reflexivity.
  - cbn [Float.sqr Float.mul]. rewrite add_nan_r. cbn [Float.mul].
    rewrite add_nan_r. reflexivity.
  - assert (Hy : y <> 0) by (intro E; apply HK; rewrite E; reflexivity).
    rewrite div_Fin, log_neg by assumption. reflexivity.
  - assert (Hs : np.sqrt (Fin t) = NaN).
    { unfold np.sqrt. destruct (Rle_dec 0 t); [lra | reflexivity]. }
    rewrite Hs, mul_nan_r, div_nan_r. reflexivity.
Qed.



(** ** Zero maturity and zero volatility *)

Section Degenerate.

Variables S K T r sigma : R.
Hypothesis HS : 0 < S.
Hypothesis HK : 0 < K.
Hypothesis HT : 0 <= T.
Hypothesis Hsigma : 0 <= sigma.
Hypothesis Hzero : T = 0 \/ sigma = 0.

Lemma vol_time_zero : sigma * sqrt T = 0.
Proof. destruct Hzero as [-> | ->]; [rewrite sqrt_0|]; ring. Qed.

(** The numerator of [d1] is the logarithm of the forward moneyness. *)
Lemma d1_numerator_degenerate :
  ln (S / K) + (r + 0.5 * sigma ^ 2) * T = ln (S / K) + r * T.
Proof. destruct Hzero as [-> | ->]; lra. Qed.

Lemma forward_moneyness_sign :
  (K * exp (- r * T) < S <-> 0 < ln (S / K) + r * T) /\
  (S < K * exp (- r * T) <-> ln (S / K) + r * T < 0).
Proof.
  assert (Hq : 0 < S / K) by (apply Rdiv_lt_0_compat; assumption).
  assert (He : exp (ln (S / K) + r * T) * (K * exp (- r * T)) = S).
  { rewrite exp_plus, exp_ln by exact Hq.
    replace (S / K * exp (r * T) * (K * exp (- r * T)))
      with (S / K * K * (exp (r * T) * exp (- r * T))) by ring.
    rewrite <- exp_plus. replace (r * T + - r * T) with 0 by ring.
    rewrite exp_0. field. lra. }
  assert (HD : 0 < K * exp (- r * T))
    by (apply Rmult_lt_0_compat; [exact HK | apply exp_pos]).
  set (m := ln (S / K) + r * T) in *.
  pose proof (exp_pos m) as Hm.
  split; split; intro H.
  - apply exp_lt_inv. rewrite exp_0. nra.
  - assert (1 < exp m) by (rewrite <- exp_0; apply exp_increasing, H). nra.
  - apply exp_lt_inv. rewrite exp_0. nra.
  - assert (exp m < 1) by (rewrite <- exp_0; apply exp_increasing, H). nra.
Qed.

Lemma d1_degenerate :
  d1 (Fin S) (Fin K) (Fin T) (Fin r) (Fin sigma)
  = Ret (Float.scale_inf true (ln (S / K) + r * T)).
Proof.
  unfold d1. rewrite truediv_Fin by lra. float_eval.
  rewrite log_Fin by (apply Rdiv_lt_0_compat; assumption).
  rewrite sqrt_Fin by exact HT. float_eval.
  rewrite d1_numerator_degenerate, vol_time_zero.
  unfold Float.div. destruct (Req_dec_T 0 0) as [_ | N]; [reflexivity | contradiction].
Qed.

Lemma d1_degenerate_itm :
  K * exp (- r * T) < S ->
  d1 (Fin S) (Fin K) (Fin T) (Fin r) (Fin sigma) = Ret PInf.
Proof.
  intro H. apply forward_moneyness_sign in H.
  rewrite d1_degenerate. unfold Float.scale_inf.
  destruct (Rlt_dec 0 (ln (S / K) + r * T)); [reflexivity | contradiction].
Qed.

Lemma d1_degenerate_otm :
  S < K * exp (- r * T) ->
  d1 (Fin S) (Fin K) (Fin T) (Fin r) (Fin sigma) = Ret NInf.
Proof.
  intro H. apply forward_moneyness_sign in H.
  rewrite d1_degenerate. unfold Float.scale_inf.
  destruct (Rlt_dec 0 (ln (S / K) + r * T)); [lra|].
  destruct (Rlt_dec (ln (S / K) + r * T) 0); [reflexivity | contradiction].
Qed.

Lemma d1_degenerate_atm :
  S = K * exp (- r * T) ->
  d1 (Fin S) (Fin K) (Fin T) (Fin r) (Fin sigma) = Ret NaN.
Proof.
  intro H. pose proof forward_moneyness_sign as [[_ H1] [_ H2]].
  rewrite d1_degenerate. unfold Float.scale_inf.
  destruct (Rlt_dec 0 (ln (S / K) + r * T)) as [Hp | _]; [apply H1 in Hp; lra|].
  destruct (Rlt_dec (ln (S / K) + r * T) 0) as [Hn | _]; [apply H2 in Hn; lra|].
  reflexivity.
Qed.

End Degenerate.







(** ** The Greeks as sensitivities of the call price *)

(** Derivative of a price [S(x) Phi(d1(x)) - D(x) Phi(d1(x) - w(x))] along any
    parameter [x], at a point where [S phi(d1) = D phi(d2)]: the terms in the
    derivative of [d1] cancel. *)
Section Sensitivity.

Variables Sf Df d1f wf : R -> R.
Variables x0 S' D' d1' w' : R.
Hypothesis HSf : derivable_pt_lim Sf x0 S'.
Hypothesis HDf : derivable_pt_lim Df x0 D'.
Hypothesis Hd1f : derivable_pt_lim d1f x0 d1'.
Hypothesis Hwf : derivable_pt_lim wf x0 w'.
Hypothesis Hbalance :
  Sf x0 * norm_pdf (d1f x0) = Df x0 * norm_pdf (d1f x0 - wf x0).

Lemma price_sensitivity :
  derivable_pt_lim
    (fun x => Sf x * norm_cdf (d1f x) - Df x * norm_cdf (d1f x - wf x)) x0
    (S' * norm_cdf (d1f x0) - D' * norm_cdf (d1f x0 - wf x0)
     + Sf x0 * norm_pdf (d1f x0) * w').
Proof.
  replace (S' * norm_cdf (d1f x0) - D' * norm_cdf (d1f x0 - wf x0)
           + Sf x0 * norm_pdf (d1f x0) * w')
    with ((S' * norm_cdf (d1f x0) + Sf x0 * (norm_pdf (d1f x0) * d1'))
          - (D' * norm_cdf (d1f x0 - wf x0)
             + Df x0 * (norm_pdf (d1f x0 - wf x0) * (d1' - w')))).
  - apply (derivable_pt_lim_minus
             (fun x => Sf x * norm_cdf (d1f x))
             (fun x => Df x * norm_cdf (d1f x - wf x))).
    + apply (derivable_pt_lim_mult Sf (fun x => norm_cdf (d1f x))); [exact HSf|].
      apply (derivable_pt_lim_comp d1f norm_cdf); [exact Hd1f | apply norm_cdf_deriv].
    + apply (derivable_pt_lim_mult Df (fun x => norm_cdf (d1f x - wf x)));
        [exact HDf|].
      apply (derivable_pt_lim_comp (fun x => d1f x - wf x) norm_cdf).
      * apply (derivable_pt_lim_minus d1f wf); assumption.
      * apply norm_cdf_deriv.
  - rewrite <- (Rmult_assoc (Df x0)), <- Hbalance. ring.
Qed.

End Sensitivity.

(** The balance between the two density terms of the call price. *)
Lemma density_balance (S K T r sigma : R) :
  valid S K T sigma ->
  S * norm_pdf (Formula.d1 S K T r sigma)
  = K * exp (- r * T) * norm_pdf (Formula.d1 S K T r sigma - sigma * sqrt T).
Proof.
  intro Hv.
  pose proof (spot_growth S K T r sigma Hv) as HS.
  pose proof (Kernel.growth_pdf (sigma * sqrt T) (Formula.d2 S K T r sigma)) as Hg.
  replace (Formula.d2 S K T r sigma + sigma * sqrt T)
    with (Formula.d1 S K T r sigma) in Hg by (unfold Formula.d2; ring).
  change (Formula.d1 S K T r sigma - sigma * sqrt T) with (Formula.d2 S K T r sigma).
  rewrite <- Hg.
  set (g := Kernel.growth (sigma * sqrt T) (Formula.d2 S K T r sigma)) in *.
  set (ph := norm_pdf (Formula.d1 S K T r sigma)).
  set (D := K * exp (- r * T)) in *.
  clearbody g ph D. rewrite HS. ring.
Qed.

Lemma affine_deriv (a b x : R) : derivable_pt_lim (fun t => a + b * t) x b.
Proof.
  apply quadratic_remainder_deriv with (M := 0). intro h.
  replace (a + b * (x + h) - (a + b * x) - h * b) with 0 by ring.
  rewrite Rabs_R0. lra.
Qed.

Section D1Derivable.

Variables S K T r sigma : R.
Hypothesis Hvalid : valid S K T sigma.

Lemma d1_derivable_spot :
  exists l, derivable_pt_lim (fun x => Formula.d1 x K T r sigma) S l.
Proof.
  destruct Hvalid as (HS & HK & HT & Hs).
  eexists.
  apply (derivable_pt_lim_div_scal
           (fun x => ln (x / K) + (r + 0.5 * sigma ^ 2) * T)).
  apply (derivable_pt_lim_plus (fun x => ln (x / K))
           (fun _ => (r + 0.5 * sigma ^ 2) * T)).
  - apply (derivable_pt_lim_comp (fun x => x / K) ln).
    + apply (linear_deriv (/ K)).
    + apply derivable_pt_lim_ln, Rdiv_lt_0_compat; assumption.
  - apply derivable_pt_lim_const.
Qed.

Lemma d1_derivable_rate :
  exists l, derivable_pt_lim (fun x => Formula.d1 S K T x sigma) r l.
Proof.
  eexists.
  apply (derivable_pt_lim_div_scal
           (fun x => ln (S / K) + (x + 0.5 * sigma ^ 2) * T)).
  apply (derivable_pt_lim_ext
           (fun x => (ln (S / K) + 0.5 * sigma ^ 2 * T) + T * x)).
  - intro x. ring.
  - apply affine_deriv.
Qed.

Lemma d1_derivable_vol :
  exists l, derivable_pt_lim (fun x => Formula.d1 S K T r x) sigma l.
Proof.
  destruct Hvalid as (HS & HK & HT & Hs).
  pose proof (vol_time_pos T sigma HT Hs) as Hden.
  eexists.
  apply (derivable_pt_lim_div
           (fun x => ln (S / K) + (r + 0.5 * x ^ 2) * T) (fun x => x * sqrt T)).
  - apply quadratic_remainder_deriv with (M := T) (l := sigma * T). intro h.
    replace (ln (S / K) + (r + 0.5 * (sigma + h) ^ 2) * T
             - (ln (S / K) + (r + 0.5 * sigma ^ 2) * T) - h * (sigma * T))
      with (0.5 * T * (h * h)) by lra.
    rewrite Rabs_pos_eq by nra. nra.
  - apply linear_deriv.
  - lra.
Qed.

Lemma d1_derivable_maturity :
  exists l, derivable_pt_lim (fun x => Formula.d1 S K x r sigma) T l.
Proof.
  destruct Hvalid as (HS & HK & HT & Hs).
  pose proof (vol_time_pos T sigma HT Hs) as Hden.
  eexists.
  apply (derivable_pt_lim_div
           (fun x => ln (S / K) + (r + 0.5 * sigma ^ 2) * x)
           (fun x => sigma * sqrt x)).
  - apply affine_deriv.
  - apply (derivable_pt_lim_scal sqrt), derivable_pt_lim_sqrt, HT.
  - lra.
Qed.

End D1Derivable.

Section FormulaSensitivities.

Variables S K T r sigma : R.
Hypothesis Hvalid : valid S K T sigma.

Lemma callPrice_deriv_spot :
  derivable_pt_lim (fun x => Formula.callPrice x K T r sigma) S
    (Formula.delta S K T r sigma).
Proof.
  destruct (d1_derivable_spot S K T r sigma Hvalid) as [l Hl].
  replace (Formula.delta S K T r sigma)
    with (1 * norm_cdf (Formula.d1 S K T r sigma)
          - 0 * norm_cdf (Formula.d1 S K T r sigma - sigma * sqrt T)
          + S * norm_pdf (Formula.d1 S K T r sigma) * 0)
    by (unfold Formula.delta; ring).
  exact (price_sensitivity (fun x => x) (fun _ => K * exp (- r * T))
           (fun x => Formula.d1 x K T r sigma) (fun _ => sigma * sqrt T)
           S 1 0 l 0
           (derivable_pt_lim_id S) (derivable_pt_lim_const _ S) Hl
           (derivable_pt_lim_const _ S) (density_balance S K T r sigma Hvalid)).
Qed.

Lemma callPrice_deriv_vol :
  derivable_pt_lim (fun x => Formula.callPrice S K T r x) sigma
    (Formula.vega S K T r sigma).
Proof.
  destruct (d1_derivable_vol S K T r sigma Hvalid) as [l Hl].
  replace (Formula.vega S K T r sigma)
    with (0 * norm_cdf (Formula.d1 S K T r sigma)
          - 0 * norm_cdf (Formula.d1 S K T r sigma - sigma * sqrt T)
          + S * norm_pdf (Formula.d1 S K T r sigma) * sqrt T)
    by (unfold Formula.vega; ring).
  exact (price_sensitivity (fun _ => S) (fun _ => K * exp (- r * T))
           (fun x => Formula.d1 S K T r x) (fun x => x * sqrt T)
           sigma 0 0 l (sqrt T)
           (derivable_pt_lim_const _ sigma) (derivable_pt_lim_const _ sigma) Hl
           (linear_deriv (sqrt T) sigma) (density_balance S K T r sigma Hvalid)).
Qed.

Lemma discount_deriv_rate (x : R) :
  derivable_pt_lim (fun x => K * exp (- x * T)) x (- (K * T * exp (- x * T))).
Proof.
  replace (- (K * T * exp (- x * T))) with (K * (exp (- x * T) * (- T))) by ring.
  apply (derivable_pt_lim_scal (fun x => exp (- x * T))).
  apply (derivable_pt_lim_comp (fun x => - x * T) exp).
  - apply (derivable_pt_lim_ext (fun x => 0 + - T * x)).
    + intro z. ring.
    + apply affine_deriv.
  - apply derivable_pt_lim_exp.
Qed.

Lemma discount_deriv_maturity (x : R) :
  derivable_pt_lim (fun x => K * exp (- r * x)) x (- (r * K * exp (- r * x))).
Proof.
  replace (- (r * K * exp (- r * x))) with (K * (exp (- r * x) * (- r))) by ring.
  apply (derivable_pt_lim_scal (fun x => exp (- r * x))).
  apply (derivable_pt_lim_comp (fun x => - r * x) exp).
  - apply (derivable_pt_lim_ext (fun x => 0 + - r * x)).
    + intro z. ring.
    + apply affine_deriv.
  - apply derivable_pt_lim_exp.
Qed.

Lemma callPrice_deriv_rate :
  derivable_pt_lim (fun x => Formula.callPrice S K T x sigma) r
    (Formula.rho S K T r sigma).
Proof.
  destruct (d1_derivable_rate S K T r sigma) as [l Hl].
  replace (Formula.rho S K T r sigma)
    with (0 * norm_cdf (Formula.d1 S K T r sigma)
          - - (K * T * exp (- r * T))
            * norm_cdf (Formula.d1 S K T r sigma - sigma * sqrt T)
          + S * norm_pdf (Formula.d1 S K T r sigma) * 0)
    by (unfold Formula.rho, Formula.d2; ring).
  exact (price_sensitivity (fun _ => S) (fun x => K * exp (- x * T))
           (fun x => Formula.d1 S K T x sigma) (fun _ => sigma * sqrt T)
           r 0 _ l 0
           (derivable_pt_lim_const _ r) (discount_deriv_rate r) Hl
           (derivable_pt_lim_const _ r) (density_balance S K T r sigma Hvalid)).
Qed.

Lemma callPrice_deriv_maturity :
  derivable_pt_lim (fun x => Formula.callPrice S K x r sigma) T
    (- Formula.theta S K T r sigma).
Proof.
  destruct Hvalid as (HS & HK & HT & Hs).
  pose proof (sqrt_lt_R0 T HT) as Hsq.
  destruct (d1_derivable_maturity S K T r sigma Hvalid) as [l Hl].
  replace (- Formula.theta S K T r sigma)
    with (0 * norm_cdf (Formula.d1 S K T r sigma)
          - - (r * K * exp (- r * T))
            * norm_cdf (Formula.d1 S K T r sigma - sigma * sqrt T)
          + S * norm_pdf (Formula.d1 S K T r sigma) * (sigma * / (2 * sqrt T))).
  - exact (price_sensitivity (fun _ => S) (fun x => K * exp (- r * x))
             (fun x => Formula.d1 S K x r sigma) (fun x => sigma * sqrt x)
             T 0 _ l _
             (derivable_pt_lim_const _ T) (discount_deriv_maturity T) Hl
             (derivable_pt_lim_scal sqrt sigma T _ (derivable_pt_lim_sqrt T HT))
             (density_balance S K T r sigma Hvalid)).
  - unfold Formula.theta, Formula.d2.
    generalize (norm_cdf (Formula.d1 S K T r sigma - sigma * sqrt T)),
      (norm_pdf (Formula.d1 S K T r sigma)), (exp (- r * T)).
    intros a b e. field. lra.
Qed.

End FormulaSensitivities.

(** The call price returned by [black_scholes], as a real function of the
    five arguments (0 where the result is not a finite pair). *)
Definition call_value (S K T r sigma : R) : R :=
  match black_scholes (Fin S) (Fin K) (Fin T) (Fin r) (Fin sigma) with
  | Ret (Fin c, _) => c
  | _ => 0
  end.

Lemma call_value_valid (S K T r sigma : R) :
  valid S K T sigma -> call_value S K T r sigma = Formula.callPrice S K T r sigma.
Proof. intro Hv. unfold call_value. rewrite black_scholes_valid by exact Hv. reflexivity. Qed.

(** Derivability at a point only depends on the function near the point. *)
Lemma derivable_pt_lim_local (f g : R -> R) (x l d : R) :
  0 < d -> (forall y, Rabs (y - x) < d -> f y = g y) ->
  derivable_pt_lim g x l -> derivable_pt_lim f x l.
Proof.
  intros Hd E Hg eps Heps. destruct (Hg eps Heps) as [delta Hdelta].
  assert (Hm : 0 < Rmin delta d) by (apply Rmin_pos; [apply cond_pos | exact Hd]).
  exists (mkposreal _ Hm). intros h Hh Hlt. simpl in Hlt.
  rewrite (E (x + h)), (E x).
  - apply Hdelta; [exact Hh|]. eapply Rlt_le_trans; [exact Hlt | apply Rmin_l].
  - replace (x - x) with 0 by ring. rewrite Rabs_R0. exact Hd.
  - replace (x + h - x) with h by ring.
    eapply Rlt_le_trans; [exact Hlt | apply Rmin_r].
Qed.

(** Near a positive point every point is positive. *)
Lemma near_positive (x y : R) : 0 < x -> Rabs (y - x) < x -> 0 < y.
Proof. intros Hx H. apply Rabs_def2 in H. lra. Qed.









(** ** Monotonicity in volatility, rate and maturity *)

Lemma incr_on_interval (f f' : R -> R) (a b : R) :
  a < b ->
  (forall c, a <= c <= b -> derivable_pt_lim f c (f' c)) ->
  (forall c, a <= c <= b -> 0 < f' c) ->
  f a < f b.
Proof.
  intros Hab HD Hpos.
  destruct (MVT_cor2 f f' a b Hab HD) as [c [E Hc]].
  assert (0 < f' c * (b - a)) by (apply Rmult_lt_0_compat; [apply Hpos|]; lra).
  lra.
Qed.

Lemma decr_on_interval (f f' : R -> R) (a b : R) :
  a < b ->
  (forall c, a <= c <= b -> derivable_pt_lim f c (f' c)) ->
  (forall c, a <= c <= b -> f' c < 0) ->
  f b < f a.
Proof.
  intros Hab HD Hneg.
  destruct (MVT_cor2 f f' a b Hab HD) as [c [E Hc]].
  assert (0 < - f' c * (b - a))
    by (apply Rmult_lt_0_compat; [specialize (Hneg c)|]; lra).
  lra.
Qed.

Lemma formula_parity (S K T r sigma : R) :
  Formula.putPrice S K T r sigma
  = Formula.callPrice S K T r sigma - S + K * exp (- r * T).
Proof.
  unfold Formula.callPrice, Formula.putPrice. rewrite !norm_cdf_sym.
  generalize (norm_cdf (Formula.d1 S K T r sigma)),
    (norm_cdf (Formula.d2 S K T r sigma)), (exp (- r * T)).
  intros; ring.
Qed.

Lemma vega_pos (S K T r sigma : R) :
  valid S K T sigma -> 0 < Formula.vega S K T r sigma.
Proof.
  intros (HS & HK & HT & Hs). unfold Formula.vega.
  apply Rmult_lt_0_compat; [|apply sqrt_lt_R0, HT].
  apply Rmult_lt_0_compat; [exact HS | apply norm_pdf_pos].
Qed.

Lemma rho_pos (S K T r sigma : R) :
  valid S K T sigma -> 0 < Formula.rho S K T r sigma.
Proof.
  intros (HS & HK & HT & Hs). unfold Formula.rho.
  apply Rmult_lt_0_compat; [|apply norm_cdf_pos].
  apply Rmult_lt_0_compat; [|apply exp_pos].
  apply Rmult_lt_0_compat; assumption.
Qed.

Lemma theta_neg (S K T r sigma : R) :
  valid S K T sigma -> 0 <= r -> Formula.theta S K T r sigma < 0.
Proof.
  intros (HS & HK & HT & Hs) Hr. unfold Formula.theta.
  pose proof (norm_cdf_pos (Formula.d2 S K T r sigma)) as Hc.
  pose proof (norm_pdf_pos (Formula.d1 S K T r sigma)) as Hp.
  pose proof (sqrt_lt_R0 T HT) as Hsq.
  pose proof (exp_pos (- r * T)) as He.
  assert (H1 : 0 < S * norm_pdf (Formula.d1 S K T r sigma) * sigma / (2 * sqrt T)).
  { apply Rdiv_lt_0_compat; [|lra].
    apply Rmult_lt_0_compat; [|exact Hs]. apply Rmult_lt_0_compat; assumption. }
  assert (H2 : 0 <= r * K * exp (- r * T) * norm_cdf (Formula.d2 S K T r sigma)).
  { apply Rmult_le_pos; [|lra]. apply Rmult_le_pos; [|lra].
    apply Rmult_le_pos; lra. }
  unfold Rdiv in *. rewrite <- Ropp_mult_distr_l. lra.
Qed.







(** * Part V: the script around the pricing functions *)

(** ** Slider values *)

(** The five values read from the sidebar.  [st.slider] returns a value
    between its [min_value] and [max_value]; the maturity slider has integer
    bounds and returns an integer number of days. *)
Record sliders : Type := {
  slider_S : R;
  slider_K : R;
  slider_T_days : Z;
  slider_r : R;
  slider_sigma : R
}.

Definition in_range (w : sliders) : Prop :=
  10 <= slider_S w <= 500 /\
  10 <= slider_K w <= 500 /\
  (1 <= slider_T_days w <= 1825)%Z /\
  0 <= slider_r w <= 0.2 /\
  0.01 <= slider_sigma w <= 2.

(** [T_years = T_days / 365]. *)
Definition T_years (w : sliders) : R := IZR (slider_T_days w) / 365.

(** ** The strike sweep *)

(** [np.linspace(start, stop, num)]: [num] evenly spaced values, both ends
    included. *)
Definition linspace (start stop : R) (num : nat) : list R :=
  map (fun i => start + INR i * ((stop - start) / INR (num - 1))) (seq 0 num).

(** [K_values = np.linspace(0.5 * S, 1.5 * S, 100)]. *)
Definition K_values (S : R) : list R := linspace (0.5 * S) (1.5 * S) 100.

(** The strikes of the sweep are numpy scalars, so [S / K] is a numpy
    division there: the pricing functions with that division. *)
Section NumpyStrike.

Local Open Scope float_scope.

Variables S K T r sigma : float.

Definition d1_np : float :=
  (np.log (S / K) + (r + Fin 0.5 * Float.sqr sigma) * T) / (sigma * np.sqrt T).

Definition d2_np : float := d1_np - sigma * np.sqrt T.

Definition black_scholes_np : float * float :=
  let D1 := d1_np in
  let D2 := d2_np in
  let call_price := S * norm.cdf D1 - K * np.exp (- r * T) * norm.cdf D2 in
  let put_price := K * np.exp (- r * T) * norm.cdf (- D2) - S * norm.cdf (- D1) in
  (call_price, put_price).

End NumpyStrike.

(** [[black_scholes(S, K, T_years, r, sigma)[0] for K in K_values]] and the
    same with index 1. *)
Definition call_prices (S T r sigma : R) (Ks : list R) : list float :=
  map (fun K => fst (black_scholes_np (Fin S) (Fin K) (Fin T) (Fin r) (Fin sigma))) Ks.

Definition put_prices (S T r sigma : R) (Ks : list R) : list float :=
  map (fun K => snd (black_scholes_np (Fin S) (Fin K) (Fin T) (Fin r) (Fin sigma))) Ks.

(** ** The axis ranges of the chart *)

(** [a < b] on floats; false as soon as one side is NaN. *)
Definition float_lt (a b : float) : bool :=
  match a, b with
  | Fin x, Fin y => if Rlt_dec x y then true else false
  | NInf, Fin _ | NInf, PInf | Fin _, PInf => true
  | _, _ => false
  end.

(** Python's [min] and [max] on a list: the running value is replaced by an
    item that compares smaller (larger); an empty list raises [ValueError],
    here [None]. *)
Fixpoint min_from (m : float) (l : list float) : float :=
  match l with
  | [] => m
  | x :: l' => min_from (if float_lt x m then x else m) l'
  end.

Fixpoint max_from (m : float) (l : list float) : float :=
  match l with
  | [] => m
  | x :: l' => max_from (if float_lt m x then x else m) l'
  end.

Definition py_min (l : list float) : option float :=
  match l with
  | [] => None
  | x :: l' => Some (min_from x l')
  end.

Definition py_max (l : list float) : option float :=
  match l with
  | [] => None
  | x :: l' => Some (max_from x l')
  end.

(** [y_min = min(call_prices + put_prices) * 0.9] and
    [y_max = max(call_prices + put_prices) * 1.1]. *)
Definition y_range (calls puts : list float) : option (float * float) :=
  match py_min (calls ++ puts), py_max (calls ++ puts) with
  | Some lo, Some hi => Some (Float.mul lo (Fin 0.9), Float.mul hi (Fin 1.1))
  | _, _ => None
  end.

(** The domain of the strike axis: [[min(K_values), max(K_values)]]. *)
Definition x_range (Ks : list R) : option (float * float) :=
  match py_min (map Fin Ks), py_max (map Fin Ks) with
  | Some lo, Some hi => Some (lo, hi)
  | _, _ => None
  end.

(** ** The data frame of the chart *)

Record data_frame : Type := {
  strike_column : list float;
  price_column : list float;
  type_column : list string
}.

(** [pd.DataFrame] of a dictionary of three columns; columns of different
    lengths raise [ValueError], here [None]. *)
Definition DataFrame (strikes prices : list float) (types : list string)
  : option data_frame :=
  if andb (List.length strikes =? List.length prices)%nat (List.length prices =? List.length types)%nat
  then Some {| strike_column := strikes; price_column := prices; type_column := types |}
  else None.

(** The frame built by the script: [np.tile(K_values, 2)],
    [call_prices + put_prices] and the labels
    [["Call"] * len(K_values) + ["Put"] * len(K_values)]. *)
Definition chart_data (Ks : list R) (calls puts : list float) : option data_frame :=
  DataFrame (map Fin Ks ++ map Fin Ks) (calls ++ puts)
    (repeat "Call"%string (List.length Ks) ++ repeat "Put"%string (List.length Ks)).

(** ** The sweep on positive strikes *)

(** With a strike that is not zero the two divisions agree. *)
Lemma black_scholes_np_agrees (S K T r sigma : float) :
  K <> Fin 0 ->
  black_scholes S K T r sigma = Ret (black_scholes_np S K T r sigma).
Proof.
  intro HK.
  assert (Hq : Float.truediv S K = Ret (Float.div S K)).
  { unfold Float.truediv. destruct K as [y | | |]; try reflexivity.
    destruct (Req_dec_T y 0) as [-> | _]; [contradiction | reflexivity]. }
  unfold black_scholes, d2, d1. rewrite Hq. reflexivity.
Qed.

Lemma Ret_inj {A : Type} (a b : A) : Ret a = Ret b -> a = b.
Proof. intro E. injection E. auto. Qed.

Lemma black_scholes_np_valid (S K T r sigma : R) :
  valid S K T sigma ->
  black_scholes_np (Fin S) (Fin K) (Fin T) (Fin r) (Fin sigma)
  = (Fin (Formula.callPrice S K T r sigma), Fin (Formula.putPrice S K T r sigma)).
Proof.
  intro Hv.
  assert (HK : Fin K <> Fin 0).
  { intro E. inversion E. destruct Hv as (_ & HK & _). lra. }
  pose proof (black_scholes_np_agrees (Fin S) (Fin K) (Fin T) (Fin r) (Fin sigma) HK) as E.
  rewrite (black_scholes_valid S K T r sigma Hv) in E.
  symmetry. exact (Ret_inj _ _ E).
Qed.

Lemma nth_map_lt {A B : Type} (f : A -> B) (l : list A) (i : nat) (a : A) (b : B) :
  (i < List.length l)%nat -> nth i (map f l) b = f (nth i l a).
Proof.
  revert i. induction l as [|x l IH]; intros i Hi; simpl in *; [lia|].
  destruct i as [|i]; [reflexivity|]. apply IH. lia.
Qed.

Lemma nth_linspace (start stop : R) (num i : nat) :
  (i < num)%nat ->
  nth i (linspace start stop num) 0
  = start + INR i * ((stop - start) / INR (num - 1)).
Proof.
  intro Hi. unfold linspace.
  rewrite (nth_map_lt _ _ _ 0%nat) by (rewrite length_seq; exact Hi).
  rewrite seq_nth by exact Hi. reflexivity.
Qed.

Lemma length_linspace (start stop : R) (num : nat) :
  List.length (linspace start stop num) = num.
Proof. unfold linspace. rewrite length_map, length_seq. reflexivity. Qed.

Lemma nth_K_values (S : R) (i : nat) :
  (i < 100)%nat -> nth i (K_values S) 0 = S * (0.5 + INR i / 99).
Proof.
  intro Hi. unfold K_values. rewrite nth_linspace by exact Hi.
  replace (INR (100 - 1)) with 99 by (simpl; lra).
  replace 1.5 with (3 / 2) by lra. replace 0.5 with (1 / 2) by lra. field.
Qed.

Lemma K_values_In (S K : R) :
  In K (K_values S) -> exists i, (i < 100)%nat /\ K = S * (0.5 + INR i / 99).
Proof.
  intro H. destruct (In_nth _ _ 0 H) as [i [Hi E]].
  unfold K_values in Hi. rewrite length_linspace in Hi.
  exists i. split; [exact Hi|]. rewrite <- E. apply nth_K_values, Hi.
Qed.

Lemma index_bounds (i : nat) : (i < 100)%nat -> 0 <= INR i <= 99.
Proof.
  intro Hi. split; [apply pos_INR|].
  replace 99 with (INR 99) by (simpl; lra). apply le_INR. lia.
Qed.

Lemma K_values_range (S K : R) :
  0 < S -> In K (K_values S) -> 0.5 * S <= K <= 1.5 * S.
Proof.
  intros HS H. destruct (K_values_In S K H) as [i [Hi ->]].
  pose proof (index_bounds i Hi) as Hb.
  assert (0 <= INR i / 99 <= 1) by lra.
  nra.
Qed.

(** X18.  The strike grid: for a positive spot, [K_values] holds 100 strikes,
    starts at [0.5 * S], ends at [1.5 * S], is strictly increasing and stays
    within these two bounds. *)
Theorem strike_grid (S : R) :
  0 < S ->
  List.length (K_values S) = 100%nat /\
  nth 0 (K_values S) 0 = 0.5 * S /\
  nth 99 (K_values S) 0 = 1.5 * S /\
  (forall i j, (i < j)%nat -> (j < 100)%nat ->
               nth i (K_values S) 0 < nth j (K_values S) 0) /\
  (forall K, In K (K_values S) -> 0.5 * S <= K <= 1.5 * S).
Proof.
  intro HS. split; [apply length_linspace|].
  split; [rewrite nth_K_values by lia; simpl; lra|].
  split; [rewrite nth_K_values by lia; simpl; lra|].
  split; [|intros K; apply K_values_range, HS].
  intros i j Hij Hj. rewrite !nth_K_values by lia.
  apply Rmult_lt_compat_l; [exact HS|].
  apply Rplus_lt_compat_l. unfold Rdiv. apply Rmult_lt_compat_r; [lra|].
  apply lt_INR, Hij.
Qed.

Lemma strike_grid_witness :
  List.length (K_values 100) = 100%nat /\
  nth 0 (K_values 100) 0 = 0.5 * 100 /\
  nth 99 (K_values 100) 0 = 1.5 * 100 /\
  (forall i j, (i < j)%nat -> (j < 100)%nat ->
               nth i (K_values 100) 0 < nth j (K_values 100) 0) /\
  (forall K, In K (K_values 100) -> 0.5 * 100 <= K <= 1.5 * 100).
Proof. apply (strike_grid 100). lra. Defined.

Lemma formula_prices_pos (S K T r sigma : R) :
  valid S K T sigma ->
  0 < Formula.callPrice S K T r sigma /\ 0 < Formula.putPrice S K T r sigma.
Proof.
  intro Hv. pose proof Hv as (HS & HK & HT & Hs).
  pose proof (vol_time_pos T sigma HT Hs) as Hden.
  pose proof (discounted_strike_pos S K T r sigma Hv) as HD.
  rewrite callPrice_kernel, putPrice_kernel by assumption.
  split; apply Rmult_lt_0_compat; try exact HD.
  - apply call_kernel_pos, Hden.
  - apply put_kernel_pos, Hden.
Qed.

Section Sweep.

Variables S T r sigma : R.
Hypothesis HS : 0 < S.
Hypothesis HT : 0 < T.
Hypothesis Hsigma : 0 < sigma.

Lemma sweep_valid (K : R) : In K (K_values S) -> valid S K T sigma.
Proof.
  intro H. pose proof (K_values_range S K HS H).
  repeat split; try assumption; lra.
Qed.

Lemma call_prices_sweep :
  call_prices S T r sigma (K_values S)
  = map Fin (map (fun K => Formula.callPrice S K T r sigma) (K_values S)).
Proof.
  unfold call_prices. rewrite map_map. apply map_ext_in.
  intros K HK. rewrite black_scholes_np_valid by (apply sweep_valid, HK). reflexivity.
Qed.

Lemma put_prices_sweep :
  put_prices S T r sigma (K_values S)
  = map Fin (map (fun K => Formula.putPrice S K T r sigma) (K_values S)).
Proof.
  unfold put_prices. rewrite map_map. apply map_ext_in.
  intros K HK. rewrite black_scholes_np_valid by (apply sweep_valid, HK). reflexivity.
Qed.

Lemma K_values_nth_In (i : nat) : (i < 100)%nat -> In (nth i (K_values S) 0) (K_values S).
Proof. intro Hi. apply nth_In. unfold K_values. rewrite length_linspace. exact Hi. Qed.

Lemma K_values_nth_le (i j : nat) :
  (i <= j)%nat -> (j < 100)%nat -> nth i (K_values S) 0 <= nth j (K_values S) 0.
Proof.
  intros Hij Hj. rewrite !nth_K_values by lia.
  apply Rmult_le_compat_l; [lra|].
  apply Rplus_le_compat_l. unfold Rdiv. apply Rmult_le_compat_r; [lra|].
  apply le_INR, Hij.
Qed.

End Sweep.



(** ** Minimum and maximum of finite values *)

Lemma min_from_Fin (l : list R) (m : R) :
  exists m', min_from (Fin m) (map Fin l) = Fin m' /\
             m' <= m /\ (forall x, In x l -> m' <= x) /\ (m' = m \/ In m' l).
Proof.
  revert m. induction l as [|x l IH]; intro m; simpl.
  - exists m. repeat split; [lra | intros x [] | left; reflexivity].
  - destruct (Rlt_dec x m) as [Hlt | Hge].
    + destruct (IH x) as (m' & E & Hle & Hall & Hin).
      exists m'. split; [exact E|]. split; [lra|]. split.
      * intros y [<- | Hy]; [exact Hle | apply Hall, Hy].
      * right. destruct Hin as [-> | Hin]; [left; reflexivity | right; exact Hin].
    + destruct (IH m) as (m' & E & Hle & Hall & Hin).
      exists m'. split; [exact E|]. split; [exact Hle|]. split.
      * intros y [<- | Hy]; [lra | apply Hall, Hy].
      * destruct Hin as [-> | Hin]; [left; reflexivity | right; right; exact Hin].
Qed.

Lemma max_from_Fin (l : list R) (m : R) :
  exists m', max_from (Fin m) (map Fin l) = Fin m' /\
             m <= m' /\ (forall x, In x l -> x <= m') /\ (m' = m \/ In m' l).
Proof.
  revert m. induction l as [|x l IH]; intro m; simpl.
  - exists m. repeat split; [lra | intros x [] | left; reflexivity].
  - destruct (Rlt_dec m x) as [Hlt | Hge].
    + destruct (IH x) as (m' & E & Hle & Hall & Hin).
      exists m'. split; [exact E|]. split; [lra|]. split.
      * intros y [<- | Hy]; [exact Hle | apply Hall, Hy].
      * right. destruct Hin as [-> | Hin]; [left; reflexivity | right; exact Hin].
    + destruct (IH m) as (m' & E & Hle & Hall & Hin).
      exists m'. split; [exact E|]. split; [exact Hle|]. split.
      * intros y [<- | Hy]; [lra | apply Hall, Hy].
      * destruct Hin as [-> | Hin]; [left; reflexivity | right; right; exact Hin].
Qed.

(** On a non-empty list of finite values [min] and [max] return an element
    of the list that bounds all the others. *)
Lemma py_min_Fin (l : list R) :
  l <> [] ->
  exists m, py_min (map Fin l) = Some (Fin m) /\ In m l /\ forall x, In x l -> m <= x.
Proof.
  destruct l as [|v l]; [intro H; contradiction|]. intros _.
  destruct (min_from_Fin l v) as (m & E & Hle & Hall & Hin).
  exists m. simpl. rewrite E. split; [reflexivity|]. split.
  - destruct Hin as [-> | Hin]; [left; reflexivity | right; exact Hin].
  - intros x [<- | Hx]; [exact Hle | apply Hall, Hx].
Qed.

Lemma py_max_Fin (l : list R) :
  l <> [] ->
  exists m, py_max (map Fin l) = Some (Fin m) /\ In m l /\ forall x, In x l -> x <= m.
Proof.
  destruct l as [|v l]; [intro H; contradiction|]. intros _.
  destruct (max_from_Fin l v) as (m & E & Hle & Hall & Hin).
  exists m. simpl. rewrite E. split; [reflexivity|]. split.
  - destruct Hin as [-> | Hin]; [left; reflexivity | right; exact Hin].
  - intros x [<- | Hx]; [exact Hle | apply Hall, Hx].
Qed.

Lemma K_values_nonempty (S : R) : K_values S <> [].
Proof.
  intro E. pose proof (length_linspace (0.5 * S) (1.5 * S) 100) as H.
  unfold K_values in E. rewrite E in H. discriminate H.
Qed.



(** ** The data frame *)

Lemma nth_repeat_lt {A : Type} (a d : A) (n i : nat) :
  (i < n)%nat -> nth i (repeat a n) d = a.
Proof.
  revert i. induction n as [|n IH]; intros i Hi; [lia|].
  destruct i as [|i]; simpl; [reflexivity | apply IH; lia].
Qed.

(** X21.  The data frame is well formed and aligned: for any list of strikes
    its three columns have twice the length of the list, so the frame is
    built; row [i] of the first half holds strike [i], its call price and
    the label "Call", row [n + i] holds strike [i], its put price and the
    label "Put". *)
Theorem chart_data_aligned (S T r sigma : R) (Ks : list R) :
  exists df,
    chart_data Ks (call_prices S T r sigma Ks) (put_prices S T r sigma Ks) = Some df /\
    List.length (strike_column df) = (2 * List.length Ks)%nat /\
    List.length (price_column df) = (2 * List.length Ks)%nat /\
    List.length (type_column df) = (2 * List.length Ks)%nat /\
    forall i, (i < List.length Ks)%nat ->
      let K := Fin (nth i Ks 0) in
      let prices := black_scholes_np (Fin S) K (Fin T) (Fin r) (Fin sigma) in
      nth i (strike_column df) NaN = K /\
      nth i (price_column df) NaN = fst prices /\
      nth i (type_column df) EmptyString = "Call"%string /\
      nth (List.length Ks + i) (strike_column df) NaN = K /\
      nth (List.length Ks + i) (price_column df) NaN = snd prices /\
      nth (List.length Ks + i) (type_column df) EmptyString = "Put"%string.
Proof.
  set (n := List.length Ks).
  exists {| strike_column := map Fin Ks ++ map Fin Ks;
            price_column := call_prices S T r sigma Ks ++ put_prices S T r sigma Ks;
            type_column := repeat "Call"%string n ++ repeat "Put"%string n |}.
  assert (L1 : List.length (map Fin Ks) = n) by apply length_map.
  assert (L2 : List.length (call_prices S T r sigma Ks) = n) by apply length_map.
  assert (L3 : List.length (put_prices S T r sigma Ks) = n) by apply length_map.
  assert (L4 : List.length (repeat "Call"%string n) = n) by apply repeat_length.
  assert (L5 : List.length (repeat "Put"%string n) = n) by apply repeat_length.
  split.
  - unfold chart_data, DataFrame. fold n.
    rewrite !length_app, L1, L2, L3, L4, L5, Nat.eqb_refl. reflexivity.
  - cbn [strike_column price_column type_column].
    rewrite !length_app, L1, L2, L3, L4, L5.
    split; [lia|]. split; [lia|]. split; [lia|].
    intros i Hi. cbv zeta.
    repeat split.
    + rewrite app_nth1 by (rewrite L1; exact Hi). apply nth_map_lt, Hi.
    + rewrite app_nth1 by (rewrite L2; exact Hi).
      exact (nth_map_lt
               (fun K => fst (black_scholes_np (Fin S) (Fin K) (Fin T) (Fin r) (Fin sigma)))
               Ks i 0 NaN Hi).
    + rewrite app_nth1 by (rewrite L4; exact Hi). apply nth_repeat_lt, Hi.
    + rewrite app_nth2 by (rewrite L1; lia). rewrite L1.
      replace (n + i - n)%nat with i by lia. apply nth_map_lt, Hi.
    + rewrite app_nth2 by (rewrite L2; lia). rewrite L2.
      replace (n + i - n)%nat with i by lia.
      exact (nth_map_lt
               (fun K => snd (black_scholes_np (Fin S) (Fin K) (Fin T) (Fin r) (Fin sigma)))
               Ks i 0 NaN Hi).
    + rewrite app_nth2 by (rewrite L4; lia). rewrite L4.
      replace (n + i - n)%nat with i by lia. apply nth_repeat_lt, Hi.
Qed.

(** ** The script on slider values *)

Lemma T_years_bounds (w : sliders) :
  (1 <= slider_T_days w <= 1825)%Z -> / 365 <= T_years w <= 5.
Proof.
  intros [H1 H2]. unfold T_years.
  apply IZR_le in H1. apply IZR_le in H2. lra.
Qed.


